(** * Task-priority inverse kinematics (TPIK) controller of the angler UVMS stack

    Shallow embedding of [angler_planning/tpik/controller.py] and
    [angler_planning/tpik/jacobian.py].

    Matrices are MathComp matrices over a real field [R].  The numerical
    routines that the code borrows from numpy are kept abstract where their
    value is not computed by the repository itself:
    - [pinv] is [np.linalg.pinv]; where a property depends on it, the theorem
      assumes the Moore-Penrose equations it satisfies;
    - [sqrt_] is the square root used by [np.linalg.norm].
    Python exceptions are modelled by [option] / explicit outcome types. *)

From HB Require Import structures.
From mathcomp Require Import boot order algebra.
From Stdlib Require Import String.

Set Implicit Arguments.
Unset Strict Implicit.
Unset Printing Implicit Defensive.

Import GRing.Theory Num.Theory Order.TTheory.
Local Open Scope ring_scope.

(* ------------------------------------------------------------------ *)
(** ** The recursive TPIK solver ([TPIK.calculate_system_velocity]) *)
(* ------------------------------------------------------------------ *)

Section Solver.

Variable R : realFieldType.

(** [n = 6 + n_manipulator_joints]: the system velocity dimension. *)
Variable n : nat.

(** [np.linalg.pinv]: an [(p x q)] matrix to a [(q x p)] matrix. *)
Variable pinv : forall p q, 'M[R]_(p, q) -> 'M[R]_(q, p).

(** Square root used by [np.linalg.norm]. *)
Variable sqrt_ : R -> R.

(** Set-task data ([tpik.constraint.SetTask]): current value, activation
    thresholds and the activation flag. *)
Record set_params := SetParams {
  current_value : R;
  lower : R;
  upper : R;
  active : bool
}.

(** The concrete task classes of [tpik.tasks] that [update_context]
    distinguishes with [isinstance]. *)
Inductive task_kind :=
| KJointLimit of int          (* [JointLimit], with its [joint] index *)
| KVehicleRollPitch
| KManipulatorConfiguration
| KVehicleYaw
| KVehicleOrientation
| KEndEffectorPose
| KOther.

(** A task object: an [(tm x n)] Jacobian, an error column, a scalar gain,
    the optional [desired_value_dot]; [set_part] is [Some _] exactly for the
    instances of [SetTask]. *)
Record task := Task {
  tm : nat;
  jacobian : 'M[R]_(tm, n);
  error : 'cV[R]_tm;
  gain : R;
  desired_value_dot : option 'cV[R]_tm;
  set_part : option set_params;
  kind : task_kind
}.

(** A Jacobian of any row count, as an element of the Python list
    [prev_jacobians]. *)
Definition jac_entry := {p : nat & 'M[R]_(p, n)}.

(** [calculate_nullspace]: [np.eye(A.shape[1]) - pinv(A) @ A]. *)
Definition calculate_nullspace p (A : 'M[R]_(p, n)) : 'M[R]_n :=
  1%:M - pinv A *m A.

(** [construct_augmented_jacobian]: [np.vstack] of the list, first element on
    top.  ([np.vstack] of an empty list raises; the solver never calls it on
    one, the model returns the empty stack there.) *)
Fixpoint construct_augmented_jacobian (js : seq jac_entry) : jac_entry :=
  match js with
  | [::] => existT (fun p => 'M[R]_(p, n)) 0%N (0 : 'M[R]_(0, n))
  | j :: js' =>
      let rest := construct_augmented_jacobian js' in
      existT (fun p => 'M[R]_(p, n)) (projT1 j + projT1 rest)%N
        (col_mx (projT2 j) (projT2 rest))
  end.

(** Right-hand side [t_dot + K @ e] of a task, [K = gain * eye(m)] and
    [t_dot = zeros] when [desired_value_dot is None]. *)
Definition task_rhs (t : task) : 'cV[R]_(tm t) :=
  odflt 0 (desired_value_dot t) + (gain t *: 1%:M) *m error t.

(** [calculate_system_velocity_rec], line by line: the value passed down as
    [system_velocities] is [updated_system_velocities], and the result is
    [updated_system_velocities + rec(...)]. *)
Fixpoint calculate_system_velocity_rec (h : seq task) (system_velocities : 'cV[R]_n)
    (prev_jacobians : seq jac_entry) (nullspace : 'M[R]_n) : 'cV[R]_n :=
  match h with
  | [::] => system_velocities
  | t :: h' =>
      let J := jacobian t in
      let updated_system_velocities :=
        pinv (J *m nullspace) *m (task_rhs t - J *m system_velocities) in
      let prev' := rcons prev_jacobians (existT (fun p => 'M[R]_(p, n)) (tm t) J) in
      let updated_nullspace :=
        calculate_nullspace (projT2 (construct_augmented_jacobian prev')) in
      updated_system_velocities +
        calculate_system_velocity_rec h' updated_system_velocities prev'
          updated_nullspace
  end.

(** [calculate_system_velocity]: [hierarchy[0]] raises [IndexError] on an
    empty list ([None]); the initial nullspace is the identity. *)
Definition calculate_system_velocity (h : seq task) : option 'cV[R]_n :=
  match h with
  | [::] => None
  | _ :: _ => Some (calculate_system_velocity_rec h 0 [::] 1%:M)
  end.

(** The recursion as the specification states it:
    [v_i = v_{i-1} + pinv(J_i N_{i-1}) (tdot_i + K_i e_i - J_i v_{i-1})],
    [N_i = I - pinv(J^A_i) J^A_i]; the result is [v_k]. *)
Fixpoint spec_velocity_rec (h : seq task) (v : 'cV[R]_n)
    (prev : seq jac_entry) (N : 'M[R]_n) : 'cV[R]_n :=
  match h with
  | [::] => v
  | t :: h' =>
      let J := jacobian t in
      let v' := v + pinv (J *m N) *m (task_rhs t - J *m v) in
      let prev' := rcons prev (existT (fun p => 'M[R]_(p, n)) (tm t) J) in
      spec_velocity_rec h' v' prev'
        (calculate_nullspace (projT2 (construct_augmented_jacobian prev')))
  end.

Definition spec_system_velocity (h : seq task) : 'cV[R]_n :=
  spec_velocity_rec h 0 [::] 1%:M.

End Solver.

(* ------------------------------------------------------------------ *)
(** ** Python and numpy helpers *)
(* ------------------------------------------------------------------ *)

(** A Python index [i] into a sequence of length [len]: negative indices
    count from the end; out of range raises [IndexError] ([None]). *)
Definition py_norm_index (len : nat) (i : int) : option nat :=
  match i with
  | Posz k => if (k < len)%N then Some k else None
  | Negz k => if (k < len)%N then Some (len - k.+1)%N else None
  end.

(** The truth value of a numpy boolean array in an [if]: defined for a
    single element, [ValueError] otherwise. *)
Definition py_truth (bs : seq bool) : option bool :=
  match bs with
  | [:: b] => Some b
  | _ => None
  end.

Section Controller.

Variable R : realFieldType.
Variable n : nat.
Variable pinv : forall p q, 'M[R]_(p, q) -> 'M[R]_(q, p).
Variable sqrt_ : R -> R.

Local Notation task := (task R n).

(** Geometry messages: [Point]/[Vector3], [Quaternion], [Transform]. *)
Record vec3 := Vec3 { vx : R; vy : R; vz : R }.
Record quaternion := Quaternion { qx : R; qy : R; qz : R; qw : R }.
Record transform := Transform { translation : vec3; rotation : quaternion }.

(** [RobotState]: the joint positions of [joint_state] and the transforms of
    [multi_dof_joint_state]. *)
Record robot_state := RobotState {
  joint_positions : seq R;
  vehicle_transforms : seq transform
}.

(** [Twist] and the parts of [RobotTrajectory] the controller fills in. *)
Record twist := Twist {
  linear_x : R; linear_y : R; linear_z : R;
  angular_x : R; angular_y : R; angular_z : R
}.

Record trajectory := Trajectory {
  multi_dof_joint_names : seq string;
  vehicle_velocities : seq twist;
  joint_names : seq string;
  arm_velocities : seq R
}.

(** Element-wise comparison of a numpy column, and [np.isclose] with its
    default tolerances [rtol = 1e-5], [atol = 1e-8]. *)
Definition elementwise m (f : R -> bool) (c : 'cV[R]_m) : seq bool :=
  [seq f (c i 0) | i <- enum 'I_m].

Definition np_isclose (a b : R) : bool :=
  `|a - b| <= (10 ^+ 8)^-1 + (10 ^+ 5)^-1 * `|b|.

(** [np.linalg.norm] of a column vector. *)
Definition np_norm (v : 'cV[R]_n) : R := sqrt_ (\sum_i v i 0 ^+ 2).

(** [np.argmax]: the index of the first maximum; [ValueError] on an empty
    sequence. *)
Fixpoint argmax_from (i best : nat) (bv : R) (xs : seq R) : nat :=
  match xs with
  | [::] => best
  | x :: xs' => if bv < x then argmax_from i.+1 i x xs' else argmax_from i.+1 best bv xs'
  end.

Definition np_argmax (xs : seq R) : option nat :=
  match xs with
  | [::] => None
  | x :: xs' => Some (argmax_from 1 0 x xs')
  end.

(** A column vector as the Python list [list(v[:, 0])]. *)
Definition col_seq m (v : 'cV[R]_m) : seq R := [seq v i 0 | i <- enum 'I_m].

(* ------------------------------------------------------------------ *)
(** ** [TPIK.get_robot_trajectory_from_velocities] *)
(* ------------------------------------------------------------------ *)

(** [chain_names] is [serial_chain.get_joint_parameter_names()] and
    [sv] is [list(system_velocities[:, 0])].  Unpacking [sv[:6]] into the
    six twist fields raises [ValueError] when fewer than six entries exist. *)
Definition get_robot_trajectory_from_velocities (chain_names : seq string)
    (sv : seq R) : option trajectory :=
  match sv with
  | [:: lx, ly, lz, ax, ay, az & _] =>
      let vehicle_vel := Twist lx ly lz ax ay az in
      Some (Trajectory [:: "vehicle"%string] [:: vehicle_vel]
              ("alpha_axis_a"%string :: rev chain_names)
              (0 :: drop 6 sv))
  | _ => None
  end.

(* ------------------------------------------------------------------ *)
(** ** The controller node ([TPIK]) *)
(* ------------------------------------------------------------------ *)

(** The node's fields.  [tasks] is [hierarchy.tasks], the task objects;
    [modes] gives [hierarchy.hierarchies] from the current task objects
    (the [TaskHierarchy] of [tpik/hierarchy.py], outside the repository,
    derives the modes from the tasks and their activation): each mode is a
    list of positions in [tasks] (the mode lists hold the very task objects
    of [tasks]).
    [tf_lookup target source] is [tf_buffer.lookup_transform] at the current
    time, [None] when it raises [TransformException].  [published] is the
    sequence of messages sent on [/angler/robot_trajectory]. *)
Record node := Node {
  description_received : bool;
  init_state_received : bool;
  chain_joint_names : seq string;
  tasks : seq task;
  modes : seq task -> seq (seq nat);
  state : robot_state;
  tf_lookup : string -> string -> option transform;
  published : seq trajectory
}.

(** [TPIK.initialized]. *)
Definition initialized (s : node) : bool :=
  description_received s && init_state_received s.

Definition is_set_task (t : task) : bool := isSome (set_part t).

(** Placeholder for positions outside [tasks] (never produced by the
    hierarchy). *)
Definition no_task : task :=
  @Task R n 0 0 0 0 None None KOther.

Definition mode_tasks (s : node) (m : seq nat) : seq task :=
  [seq nth no_task (tasks s) i | i <- m].

Definition hierarchies (s : node) : seq (seq task) := [seq mode_tasks s m | m <- modes s (tasks s)].

(** Modelled from the spec: [TaskHierarchy.active_task_hierarchy]
    (tpik/hierarchy.py), "all equality tasks plus only the currently active
    set tasks, in original priority order". *)
Definition active_task_hierarchy (s : node) : seq task :=
  [seq t <- tasks s | if set_part t is Some sp then active sp else true].

(** [has_set_tasks = any(any(isinstance(y, SetTask) for y in x) for x in hierarchies)]. *)
Definition has_set_tasks (hs : seq (seq task)) : bool :=
  has (fun h => has is_set_task h) hs.

(** The [if]/[elif] chain of [update] for one set task and a solution. *)
Definition set_task_check (t : task) (sp : set_params R) (solution : 'cV[R]_n) : option bool :=
  let projection := jacobian t *m solution in
  let c1 := if current_value sp < lower sp
            then py_truth (elementwise (fun p => 0 < p) projection) else Some false in
  match c1 with
  | None => None
  | Some true => Some true
  | Some false =>
      let c2 := if upper sp < current_value sp
                then py_truth (elementwise (fun p => p < 0) projection) else Some false in
      match c2 with
      | None => None
      | Some true => Some true
      | Some false => py_truth (elementwise (fun p => np_isclose p 0) projection)
      end
  end.

(** [satisfied] over the list [set_tasks], then [all(satisfied)]. *)
Fixpoint all_satisfied (set_tasks : seq task) (solution : 'cV[R]_n) : option bool :=
  match set_tasks with
  | [::] => Some true
  | t :: ts =>
      match set_part t with
      | None => all_satisfied ts solution
      | Some sp =>
          match set_task_check t sp solution with
          | None => None
          | Some b => omap (andb b) (all_satisfied ts solution)
          end
      end
  end.

(** The [for hierarchy in hierarchies] loop: the feasible solutions, in
    order; [None] when a solve or a check raises. *)
Fixpoint collect_solutions (set_tasks : seq task) (hs : seq (seq task)) : option (seq 'cV[R]_n) :=
  match hs with
  | [::] => Some [::]
  | h :: hs' =>
      match calculate_system_velocity pinv h with
      | None => None
      | Some solution =>
          match all_satisfied set_tasks solution with
          | None => None
          | Some b =>
              omap (fun rest => if b then solution :: rest else rest)
                (collect_solutions set_tasks hs')
          end
      end
  end.

(** What one call of [TPIK.update] does: publish a message, return without
    publishing, or raise. *)
Inductive outcome :=
| UPublish of trajectory
| UReturn
| URaise.

Definition publish_velocities (s : node) (v : 'cV[R]_n) : outcome :=
  match get_robot_trajectory_from_velocities (chain_joint_names s) (col_seq v) with
  | Some tr => UPublish tr
  | None => URaise
  end.

(** [TPIK.update]. *)
Definition update (s : node) : outcome :=
  if ~~ initialized s then UReturn else
  let hs := hierarchies s in
  if ~~ has_set_tasks hs then
    match hs with
    | [::] => URaise
    | h0 :: _ =>
        match calculate_system_velocity pinv h0 with
        | None => URaise
        | Some v => publish_velocities s v
        end
    end
  else
    let set_tasks := [seq t <- active_task_hierarchy s | is_set_task t] in
    match collect_solutions set_tasks hs with
    | None => URaise
    | Some solutions =>
        (* [try: solutions[np.argmax(...)] except Exception: return] *)
        match np_argmax [seq np_norm x | x <- solutions] with
        | None => UReturn
        | Some i => publish_velocities s (nth 0 solutions i)
        end
    end.

Definition with_published (s : node) (ps : seq trajectory) : node :=
  Node (description_received s) (init_state_received s) (chain_joint_names s)
    (tasks s) (modes s) (state s) (tf_lookup s) ps.

(** One control-timer tick: the node after [update], [None] when [update]
    raises (the exception leaves the executor). *)
Definition tick (s : node) : option node :=
  match update s with
  | UPublish tr => Some (with_published s (rcons (published s) tr))
  | UReturn => Some s
  | URaise => None
  end.

(** A run of control-timer ticks, stopping at the first exception. *)
Fixpoint run_ticks (k : nat) (s : node) : option node :=
  match k with
  | 0%N => Some s
  | k'.+1 => match tick s with Some s' => run_ticks k' s' | None => None end
  end.

(* ------------------------------------------------------------------ *)
(** ** [TPIK.update_context] and [TPIK.robot_state_cb] *)
(* ------------------------------------------------------------------ *)

(** The [update] (and [set_task_active]) methods of the task classes of
    [tpik.tasks] (outside the repository); [update_context] only dispatches
    to them.  Each gives the task object after the call, or [None] when the
    method raises (for instance [np.linalg.inv] in the yaw Jacobian). *)
Variable joint_limit_update : task -> R -> option task.
Variable joint_limit_set_task_active : task -> R -> option task.
Variable roll_pitch_update : task -> quaternion -> option task.
Variable configuration_update : task -> seq R -> option task.
Variable yaw_update : task -> quaternion -> option task.
Variable orientation_update : task -> quaternion -> option task.
Variable end_effector_update :
  task -> seq R -> transform -> transform -> transform -> option task.

(** [transforms[0]]: [IndexError] on an empty list. *)
Definition first_transform (ts : seq transform) : option transform :=
  match ts with
  | [::] => None
  | t :: _ => Some t
  end.

(** One iteration of the loop of [update_context]: the task object after the
    iteration, or [None] when the iteration raises.  [position[1:]] drops the
    jaws joint. *)
Definition update_task_context (st : robot_state)
    (lookup : string -> string -> option transform) (t : task) : option task :=
  let joint_angles := behead (joint_positions st) in
  match kind t with
  | KJointLimit joint =>
      match py_norm_index (size joint_angles) (joint - 6) with
      | None => None
      | Some i =>
          let joint_angle := nth 0 joint_angles i in
          obind (fun t' => joint_limit_set_task_active t' joint_angle)
            (joint_limit_update t joint_angle)
      end
  | KVehicleRollPitch =>
      obind (fun vehicle_pose => roll_pitch_update t (rotation vehicle_pose))
        (first_transform (vehicle_transforms st))
  | KManipulatorConfiguration => configuration_update t joint_angles
  | KVehicleYaw =>
      obind (fun vehicle_pose => yaw_update t (rotation vehicle_pose))
        (first_transform (vehicle_transforms st))
  | KVehicleOrientation =>
      obind (fun vehicle_pose => orientation_update t (rotation vehicle_pose))
        (first_transform (vehicle_transforms st))
  | KEndEffectorPose =>
      match first_transform (vehicle_transforms st) with
      | None => None
      | Some vehicle_pose =>
          match lookup "base_link"%string "alpha_base_link"%string with
          | None => Some t (* TransformException: log, [continue] *)
          | Some tf_manipulator_base_to_base =>
              match lookup "alpha_ee_base_link"%string "map"%string with
              | None => Some t (* TransformException: log, [continue] *)
              | Some tf_map_to_ee =>
                  end_effector_update t joint_angles vehicle_pose
                    tf_manipulator_base_to_base tf_map_to_ee
              end
          end
      end
  | KOther => Some t
  end.

(** The loop [for task in self.hierarchy.tasks], mutating each task in place.
    [CtxRaise done rest] is an exception: [done] are the tasks before the
    failing one, updated, and [rest] the tasks after it, never visited (the
    state a raising method leaves its own task in is not modelled). *)
Inductive context_result :=
| CtxOk of seq task
| CtxRaise of seq task & seq task.

Fixpoint update_context_tasks (st : robot_state)
    (lookup : string -> string -> option transform) (ts : seq task) : context_result :=
  match ts with
  | [::] => CtxOk [::]
  | t :: ts' =>
      match update_task_context st lookup t with
      | None => CtxRaise [::] ts'
      | Some t' =>
          match update_context_tasks st lookup ts' with
          | CtxOk us => CtxOk (t' :: us)
          | CtxRaise us vs => CtxRaise (t' :: us) vs
          end
      end
  end.

Definition with_context (s : node) (st : robot_state) (ts : seq task) : node :=
  Node (description_received s) true (chain_joint_names s)
    ts (modes s) st (tf_lookup s) (published s).

(** [TPIK.robot_state_cb]: store the snapshot, run [update_context], then set
    [_init_state_received]; an exception in [update_context] leaves the
    callback ([None]). *)
Definition robot_state_cb (s : node) (st : robot_state) : option node :=
  match update_context_tasks st (tf_lookup s) (tasks s) with
  | CtxOk ts => Some (with_context s st ts)
  | CtxRaise _ _ => None
  end.

(** The callbacks the executor serialises: a state message or a control tick. *)
Inductive event :=
| EState of robot_state
| ETick.

Fixpoint run_events (evs : seq event) (s : node) : option node :=
  match evs with
  | [::] => Some s
  | EState st :: evs' =>
      match robot_state_cb s st with Some s' => run_events evs' s' | None => None end
  | ETick :: evs' =>
      match tick s with Some s' => run_events evs' s' | None => None end
  end.

End Controller.

Arguments UReturn {R}.
Arguments URaise {R}.
Arguments ETick {R}.

(* ------------------------------------------------------------------ *)
(** ** The Jacobian library ([tpik/jacobian.py]) *)
(* ------------------------------------------------------------------ *)

(** A Python function's result: [None] or a value. *)
Inductive py_result (A : Type) :=
| PyNone
| PyValue of A.

Arguments PyNone {A}.

Section JacobianLibrary.

Variable R : realFieldType.

(** [np.sqrt], used by [np.linalg.norm]. *)
Variable sqrt_ : R -> R.

(** A two-dimensional numpy array as its list of rows. *)
Definition np_zeros (rows cols : nat) : seq (seq R) := nseq rows (nseq cols 0).

(** [calculate_joint_limit_jacobian]: [J = np.zeros((1, 6 + n))] then
    [J[joint_index] = 1], which indexes a row of [J] (so the assignment
    broadcasts [1] over that whole row) and raises [IndexError] outside
    the single row ([None]). *)
Definition calculate_joint_limit_jacobian (joint_index : int)
    (num_manipulator_joints : nat) : option (seq (seq R)) :=
  let J := np_zeros 1 (6 + num_manipulator_joints) in
  match py_norm_index (size J) joint_index with
  | None => None
  | Some i => Some (set_nth [::] J i (nseq (size (nth [::] J i)) 1))
  end.

(** What the claim calls the joint-limit Jacobian: the [1 x (6 + n)] row
    with a single [1] in column [joint_index]. *)
Definition unit_row (joint_index num_manipulator_joints : nat) : seq (seq R) :=
  [:: [seq (if j == joint_index then 1 else 0) | j <- iota 0 (6 + num_manipulator_joints)]].

(** Number of manipulator joints ([len(joint_angles)]). *)
Variable k : nat.

(** [calculate_manipulator_jacobian(serial_chain, .)]: kinpy's [6 x k]
    Jacobian of the serial chain at the given joint angles. *)
Variable manipulator_jacobian : 'rV[R]_k -> 'M[R]_(3 + 3, k).

Definition point_to_array (p : vec3 R) : 'rV[R]_3 :=
  \row_(i < 3) [:: vx p; vy p; vz p]`_i.

(** [np.cross] of two 3-vectors. *)
Definition np_cross (a b : 'rV[R]_3) : 'rV[R]_3 :=
  let a0 := a 0 0 in let a1 := a 0 (inord 1) in let a2 := a 0 (inord 2) in
  let b0 := b 0 0 in let b1 := b 0 (inord 1) in let b2 := b 0 (inord 2) in
  \row_(i < 3) [:: a1 * b2 - a2 * b1; a2 * b0 - a0 * b2; a0 * b1 - a1 * b0]`_i.

Definition np_norm3 (a : 'rV[R]_3) : R := sqrt_ (\sum_i a 0 i ^+ 2).

(** The outer normal of the plane, line 234. *)
Definition plane_normal (p1 p2 p3 : vec3 R) : 'rV[R]_3 :=
  let a1 := point_to_array p1 in
  let a2 := point_to_array p2 in
  let a3 := point_to_array p3 in
  (np_norm3 (np_cross (a2 - a1) (a3 - a1)))^-1 *: np_cross (a2 - a1) (a3 - a1).

(** The local [J] built by lines 231-242: [J = np.zeros((3, 6 + k))] and
    [J[:, 6:] = -plane_normal.T @ J_pos]; the right side is a length-[k]
    vector, broadcast over the three rows. *)
Definition collision_avoidance_local_J (p1 p2 p3 : vec3 R) (joint_angles : 'rV[R]_k)
    : 'M[R]_(3, 6 + k) :=
  let J_pos := usubmx (manipulator_jacobian joint_angles) in
  let proj := - (plane_normal p1 p2 p3 *m J_pos) in
  row_mx (0 : 'M[R]_(3, 6)) (\matrix_(i < 3, j < k) proj 0 j).

(** [calculate_vehicle_manipulator_collision_avoidance_jacobian]: the body
    builds [J] and falls off its end without a [return] statement. *)
Definition calculate_vehicle_manipulator_collision_avoidance_jacobian
    (plane : vec3 R * vec3 R * vec3 R) (joint_angles : 'rV[R]_k)
    : py_result 'M[R]_(3, 6 + k) :=
  let '(p1, p2, p3) := plane in
  let _J := collision_avoidance_local_J p1 p2 p3 joint_angles in
  PyNone.

End JacobianLibrary.

(* ------------------------------------------------------------------ *)
(** ** Concrete inputs *)
(* ------------------------------------------------------------------ *)

(** The Moore-Penrose pseudoinverse of a matrix of full row rank,
    [A^T (A A^T)^-1]. *)
Definition mp_full_row (R : realFieldType) p q (A : 'M[R]_(p, q)) : 'M[R]_(q, p) :=
  A^T *m invmx (A *m A^T).

(** A six-column system ([n_manipulator_joints = 0]) and the Jacobian row
    selecting the vehicle's linear x velocity. *)
Definition e0_row : 'M[rat]_(1, 6) := delta_mx 0 0.

(** An equality task with Jacobian [e0_row], error [1], gain [1]. *)
Definition eq_task_ex : task rat 6 :=
  @Task rat 6 1 e0_row 1%:M 1 None None KOther.

(** An active set task below its lower bound ([0 < 1]) whose Jacobian is
    [-e0_row]. *)
Definition set_task_ex : task rat 6 :=
  @Task rat 6 1 (- e0_row) 1%:M 1 None (Some (SetParams 0 1 2 true)) (KJointLimit 6).

(** A node with those two tasks and the modes [[eq]] and [[eq, set]]. *)
Definition node_ex (initd : bool) : node rat 6 :=
  @Node rat 6 initd initd [:: "axis_b"%string; "axis_c"%string]
    [:: eq_task_ex; set_task_ex] (fun _ => [:: [:: 0%N]; [:: 0%N; 1%N]])
    (RobotState [::] [::]) (fun _ _ => None) [::].

(** A vehicle yaw task and an end-effector pose task. *)
Definition yaw_task_ex : task rat 6 :=
  @Task rat 6 1 e0_row 1%:M 1 None None KVehicleYaw.

Definition ee_task_ex : task rat 6 :=
  @Task rat 6 1 e0_row 1%:M 1 None None KEndEffectorPose.

Definition identity_transform : transform rat :=
  Transform (Vec3 0 0 0) (Quaternion 0 0 0 1).

(** A set task with Jacobian [e0_row] and error [-1], below its lower bound,
    alone in the only mode of a node. *)
Definition set_task_ex2 : task rat 6 :=
  @Task rat 6 1 e0_row (- 1%:M) 1 None (Some (SetParams 0 1 2 true)) (KJointLimit 6).

Definition node_ex2 : node rat 6 :=
  @Node rat 6 true true [:: "axis_b"%string] [:: set_task_ex2] (fun _ => [:: [:: 0%N]])
    (RobotState [::] [::]) (fun _ _ => None) [::].

(* ------------------------------------------------------------------ *)
(** ** The arbitration rule, for statements *)
(* ------------------------------------------------------------------ *)

Section Arbitration.

Variable R : realFieldType.
Variable n : nat.
Variable pinv : forall p q, 'M[R]_(p, q) -> 'M[R]_(q, p).

(** The sign check of one set task on a solution: below [lower] the
    projection is positive, above [upper] it is negative, or it is close to
    zero. *)
Definition sign_check (t : task R n) (sp : set_params R) (sol : 'cV[R]_n) : bool :=
  let ps := col_seq (jacobian t *m sol) in
  [|| (current_value sp < lower sp) && all (fun p => 0 < p) ps,
      (upper sp < current_value sp) && all (fun p => p < 0) ps
    | all (fun p => np_isclose p 0) ps].

(** Every set task of [sts] passes its sign check. *)
Definition satisfies_set_tasks (sts : seq (task R n)) (sol : 'cV[R]_n) : bool :=
  all (fun t => if set_part t is Some sp then sign_check t sp sol else true) sts.

(** The set tasks that [update] checks: those of [active_task_hierarchy]. *)
Definition active_set_tasks (s : node R n) : seq (task R n) :=
  [seq t <- active_task_hierarchy s | is_set_task t].

(** The solver's output for one mode, and for all modes in order. *)
Definition mode_solution (h : seq (task R n)) : 'cV[R]_n :=
  calculate_system_velocity_rec pinv h 0 [::] 1%:M.

Definition candidate_solutions (s : node R n) : seq 'cV[R]_n :=
  [seq mode_solution h | h <- hierarchies s].

End Arbitration.

(* ------------------------------------------------------------------ *)
(** ** The vehicle Jacobians of [jacobian.py] and its skew-matrix helper *)
(* ------------------------------------------------------------------ *)

Section VehicleJacobians.

Variable R : realFieldType.

(** [np.sin] and [np.cos]. *)
Variables sin_ cos_ : R -> R.

(** [conversions.quaternion_to_rotation(q).as_euler("xyz")] (roll, pitch,
    yaw) and [conversions.quaternion_to_rotation(q).as_matrix()]. *)
Variable quaternion_to_euler : quaternion R -> R * R * R.
Variable quaternion_to_matrix : quaternion R -> 'M[R]_3.

(** [np.linalg.pinv]. *)
Variable pinv : forall p q, 'M[R]_(p, q) -> 'M[R]_(q, p).

(** [np.array] of a 3 x 3 nested list. *)
Definition np_array33 (rows : seq (seq R)) : 'M[R]_3 :=
  \matrix_(i < 3, j < 3) nth 0 (nth [::] rows i) j.

(** [calculate_vehicle_angular_velocity_jacobian]. *)
Definition calculate_vehicle_angular_velocity_jacobian (rot_map_to_base : quaternion R)
    : 'M[R]_3 :=
  let '(roll, pitch, _) := quaternion_to_euler rot_map_to_base in
  np_array33 [:: [:: 1; 0; - sin_ pitch];
                 [:: 0; cos_ roll; cos_ pitch * sin_ roll];
                 [:: 0; - sin_ roll; cos_ pitch * cos_ roll]].

(** [J = np.zeros((p, 6 + num_manipulator_joints))] followed by
    [J[:, 3:6] = B]. *)
Definition angular_columns p (num_manipulator_joints : nat) (B : 'M[R]_(p, 3))
    : 'M[R]_(p, 6 + num_manipulator_joints) :=
  row_mx (0 : 'M[R]_(p, 3)) (row_mx B (0 : 'M[R]_(p, num_manipulator_joints))).

(** [calculate_vehicle_orientation_jacobian]. *)
Definition calculate_vehicle_orientation_jacobian (rot_base_to_map : transform R)
    (num_manipulator_joints : nat) : 'M[R]_(3, 6 + num_manipulator_joints) :=
  angular_columns num_manipulator_joints (quaternion_to_matrix (rotation rot_base_to_map)).

(** [calculate_vehicle_roll_pitch_jacobian]:
    [J[:, 3:6] = np.array([[1, 0, 0], [0, 1, 0]]) @ np.linalg.pinv(J_ko)]. *)
Definition calculate_vehicle_roll_pitch_jacobian (rot_map_to_base : quaternion R)
    (num_manipulator_joints : nat) : 'M[R]_(2, 6 + num_manipulator_joints) :=
  let J_ko := calculate_vehicle_angular_velocity_jacobian rot_map_to_base in
  angular_columns num_manipulator_joints
    ((\matrix_(i < 2, j < 3) nth 0 (nth [::] [:: [:: 1; 0; 0]; [:: 0; 1; 0]] i) j)
       *m pinv J_ko).

(** [calculate_vehicle_yaw_jacobian]:
    [J[:, 3:6] = np.array([0, 0, 1]) @ np.linalg.inv(J_ko)]; [np.linalg.inv]
    raises [LinAlgError] on a singular matrix ([None]). *)
Definition calculate_vehicle_yaw_jacobian (rot_map_to_base : quaternion R)
    (num_manipulator_joints : nat) : option 'M[R]_(1, 6 + num_manipulator_joints) :=
  let J_ko := calculate_vehicle_angular_velocity_jacobian rot_map_to_base in
  if J_ko \in unitmx then
    Some (angular_columns num_manipulator_joints
            ((\row_(j < 3) nth 0 [:: 0; 0; 1] j) *m invmx J_ko))
  else None.

(** The local [get_skew_matrix] of [calculate_uvms_jacobian]. *)
Definition get_skew_matrix (x : 'rV[R]_3) : 'M[R]_3 :=
  let x0 := x 0 0 in let x1 := x 0 (inord 1) in let x2 := x 0 (inord 2) in
  np_array33 [:: [:: 0; - x2; x1]; [:: x2; 0; - x0]; [:: - x1; x0; 0]].

End VehicleJacobians.

(* ------------------------------------------------------------------ *)
(** ** More concrete inputs *)
(* ------------------------------------------------------------------ *)

(** An equality task with error [0]: its right-hand side is zero. *)
Definition zero_task_ex : task rat 6 :=
  @Task rat 6 1 e0_row 0 1 None None KOther.

(** A set task with a two-row Jacobian, alone in the only mode of a node. *)
Definition set_task_2row : task rat 6 :=
  @Task rat 6 2 0 0 1 None (Some (SetParams 0 1 2 true)) KOther.

Definition node_2row : node rat 6 :=
  @Node rat 6 true true [:: "axis_b"%string] [:: set_task_2row] (fun _ => [:: [:: 0%N]])
    (RobotState [::] [::]) (fun _ _ => None) [::].

(** A node with one equality task and no set task. *)
Definition node_eq_only : node rat 6 :=
  @Node rat 6 true true [:: "axis_b"%string] [:: eq_task_ex] (fun _ => [:: [:: 0%N]])
    (RobotState [::] [::]) (fun _ _ => None) [::].

(** The Jacobian row selecting the vehicle's linear y velocity, and an
    equality task on it with error [1] and gain [1]. *)
Definition e1_row : 'M[rat]_(1, 6) := delta_mx 0 (inord 1).

Definition eq_task_e1 : task rat 6 :=
  @Task rat 6 1 e1_row 1%:M 1 None None KOther.

(** An active set task below its lower bound ([0 < 1]) with Jacobian
    [e0_row], error [1] and gain [1]. *)
Definition set_task_pos : task rat 6 :=
  @Task rat 6 1 e0_row 1%:M 1 None (Some (SetParams 0 1 2 true)) KOther.

(** A node with the modes [[eq_e1]], [[eq]] and [[set_pos]], one task each:
    three feasible solutions of the same norm. *)
Definition node_tie : node rat 6 :=
  @Node rat 6 true true [:: "axis_b"%string] [:: eq_task_e1; eq_task_ex; set_task_pos]
    (fun _ => [:: [:: 0%N]; [:: 1%N]; [:: 2%N]])
    (RobotState [::] [::]) (fun _ _ => None) [::].

(** The list [prev_jacobians] after one task with Jacobian [e0_row]. *)
Definition e0_jacobians : seq (jac_entry rat 6) :=
  [:: existT (fun p => 'M[rat]_(p, 6)) 1%N e0_row].

(* ================================================================== *)
(** * Theorems *)
(* ================================================================== *)

Section SolverTheory.

Variable R : realFieldType.
Variable n : nat.
Variable pinv : forall p q, 'M[R]_(p, q) -> 'M[R]_(q, p).

Lemma calculate_system_velocity_one (t : task R n) :
  calculate_system_velocity pinv [:: t] =
  Some (pinv (jacobian t) *m task_rhs t + pinv (jacobian t) *m task_rhs t).
Proof. by rewrite /calculate_system_velocity /= mulmx1 mulmx0 subr0. Qed.

Lemma spec_system_velocity_one (t : task R n) :
  spec_system_velocity pinv [:: t] = pinv (jacobian t) *m task_rhs t.
Proof. by rewrite /spec_system_velocity /= mulmx1 mulmx0 subr0 add0r. Qed.

(** C4: for one equality task whose Jacobian [J] has full row rank (a right
    inverse) and a pseudoinverse satisfying [J pinv(J) J = J], the solver's
    output is not the closed form [pinv(J) (tdot + K e)] as soon as
    [tdot + K e <> 0]: it is twice that value. *)
Theorem calculate_system_velocity_single_task_twice (t : task R n)
    (Rinv : 'M[R]_(n, tm t)) :
  jacobian t *m Rinv = 1%:M ->
  jacobian t *m pinv (jacobian t) *m jacobian t = jacobian t ->
  task_rhs t != 0 ->
  calculate_system_velocity pinv [:: t] =
    Some (2%:R *: (pinv (jacobian t) *m task_rhs t)) /\
  calculate_system_velocity pinv [:: t] <> Some (pinv (jacobian t) *m task_rhs t).
Proof.
move=> hR hP hr; rewrite calculate_system_velocity_one.
split; first by rewrite scaler_nat mulr2n.
move=> [] /eqP; rewrite -subr_eq0 addrK => /eqP hd.
have hJ : jacobian t *m pinv (jacobian t) = 1%:M.
  by rewrite -[LHS]mulmx1 -hR !mulmxA hP.
move/eqP: hr; apply; by rewrite -[task_rhs t]mul1mx -hJ -mulmxA hd mulmx0.
Qed.

End SolverTheory.

Section NullspaceTheory.

Variable R : realFieldType.
Variable n : nat.
Variable pinv : forall p q, 'M[R]_(p, q) -> 'M[R]_(q, p).

(** C9: [calculate_nullspace A = I - pinv(A) A] is idempotent and symmetric
    for every real matrix [A], given the two Moore-Penrose equations
    [A pinv(A) A = A] and [(pinv(A) A)^T = pinv(A) A] that [np.linalg.pinv]
    satisfies. *)
Theorem calculate_nullspace_idempotent_symmetric p (A : 'M[R]_(p, n)) :
  A *m pinv A *m A = A ->
  (pinv A *m A)^T = pinv A *m A ->
  calculate_nullspace pinv A *m calculate_nullspace pinv A = calculate_nullspace pinv A /\
  (calculate_nullspace pinv A)^T = calculate_nullspace pinv A.
Proof.
move=> hP hS; rewrite /calculate_nullspace.
have PP : pinv A *m A *m (pinv A *m A) = pinv A *m A.
  by rewrite mulmxA -[pinv A *m A *m pinv A]mulmxA
             -[pinv A *m (A *m pinv A) *m A]mulmxA hP.
split; first by rewrite mulmxBl mul1mx mulmxBr mulmx1 PP subrr subr0.
by rewrite linearB /= trmx1 hS.
Qed.

End NullspaceTheory.

(** The full-row-rank pseudoinverse satisfies the Moore-Penrose equations
    used above. *)
Lemma mp_full_row_penrose (R : realFieldType) p q (A : 'M[R]_(p, q)) :
  A *m A^T \in unitmx ->
  A *m mp_full_row A *m A = A /\ (mp_full_row A *m A)^T = mp_full_row A *m A.
Proof.
move=> hU; rewrite /mp_full_row; split.
  by rewrite mulmxA mulmxV // mul1mx.
by rewrite !trmx_mul trmxK trmx_inv trmx_mul trmxK mulmxA.
Qed.

Lemma e0_row_gram : e0_row *m e0_row^T = 1%:M.
Proof.
rewrite /e0_row trmx_delta mul_delta_mx.
by apply/matrixP => i j; rewrite !ord1 !mxE.
Qed.

Lemma mp_full_row_e0 : mp_full_row e0_row = e0_row^T.
Proof. by rewrite /mp_full_row e0_row_gram invmx1 mulmx1. Qed.

Lemma e0_row_penrose :
  e0_row *m mp_full_row e0_row *m e0_row = e0_row /\
  (mp_full_row e0_row *m e0_row)^T = mp_full_row e0_row *m e0_row.
Proof. by apply: mp_full_row_penrose; rewrite e0_row_gram unitmx1. Qed.

Lemma task_rhs_eq_task_ex : task_rhs eq_task_ex = 1%:M.
Proof.
by rewrite /task_rhs /= add0r scale1r mul1mx.
Qed.

Lemma one_cV1_neq0 : (1%:M : 'cV[rat]_1) != 0.
Proof.
apply/eqP => /matrixP /(_ 0 0); rewrite !mxE /= => /eqP.
by rewrite oner_eq0.
Qed.

Lemma calculate_system_velocity_single_task_twice_witness :
  calculate_system_velocity (@mp_full_row rat) [:: eq_task_ex] =
    Some (2%:R *: (mp_full_row (jacobian eq_task_ex) *m task_rhs eq_task_ex)) /\
  calculate_system_velocity (@mp_full_row rat) [:: eq_task_ex] <>
    Some (mp_full_row (jacobian eq_task_ex) *m task_rhs eq_task_ex).
Proof.
apply: (@calculate_system_velocity_single_task_twice _ _ _ eq_task_ex e0_row^T).
- exact: e0_row_gram.
- exact: (proj1 e0_row_penrose).
- rewrite task_rhs_eq_task_ex; exact: one_cV1_neq0.
Defined.

Lemma calculate_nullspace_idempotent_symmetric_witness :
  calculate_nullspace (@mp_full_row rat) e0_row *m calculate_nullspace (@mp_full_row rat) e0_row =
    calculate_nullspace (@mp_full_row rat) e0_row /\
  (calculate_nullspace (@mp_full_row rat) e0_row)^T = calculate_nullspace (@mp_full_row rat) e0_row.
Proof.
apply: calculate_nullspace_idempotent_symmetric.
- exact: (proj1 e0_row_penrose).
- exact: (proj2 e0_row_penrose).
Defined.

Section ControllerTheory.

Variable R : realFieldType.
Variable n : nat.
Variable pinv : forall p q, 'M[R]_(p, q) -> 'M[R]_(q, p).
Variable sqrt_ : R -> R.

Local Notation task := (task R n).
Local Notation node := (node R n).

Lemma col_seq_single m (c : 'cV[R]_m) :
  m = 1%N -> exists x, col_seq c = [:: x] /\ forall f, elementwise f c = [:: f x].
Proof.
move=> hm; subst m; rewrite /col_seq /elementwise.
have := size_enum_ord 1; case: (enum 'I_1) => [|i [|j l]] //= _.
by exists (c i 0).
Qed.

Lemma set_task_check_single (t : task) sp sol :
  tm t = 1%N -> set_task_check t sp sol = Some (sign_check t sp sol).
Proof.
move=> ht; rewrite /set_task_check /sign_check.
have [x [hc he]] := col_seq_single (jacobian t *m sol) ht.
rewrite !he hc /= !andbT.
by case: (current_value sp < lower sp); case: (0 < x);
   case: (upper sp < current_value sp); case: (x < 0).
Qed.

Lemma all_satisfied_single (sts : seq task) sol :
  all (fun t => tm t == 1%N) sts ->
  all_satisfied sts sol = Some (satisfies_set_tasks sts sol).
Proof.
elim: sts => [|t sts IH] // hall.
move: hall => /= /ssrbool.andP [/eqP ht hs].
case: (set_part t) => [sp|]; last exact: IH.
by rewrite set_task_check_single // IH.
Qed.

Lemma collect_solutions_filter (sts : seq task) (hs : seq (seq task)) :
  all (fun t => tm t == 1%N) sts ->
  all (fun h => ~~ nilp h) hs ->
  collect_solutions pinv sts hs =
    Some [seq v <- [seq mode_solution pinv h | h <- hs] | satisfies_set_tasks sts v].
Proof.
move=> hsts; elim: hs => [|[|t h] hs IH] //= hne.
rewrite all_satisfied_single // (IH hne) /=.
by case: (satisfies_set_tasks sts _).
Qed.

(** [np.argmax] returns an index of the list holding a maximum. *)
Lemma argmax_from_max (L : seq R) i best xs :
  (best < i)%N -> (i + size xs)%N = size L -> drop i L = xs ->
  (forall j, (j < i)%N -> L`_j <= L`_best) ->
  (argmax_from i best L`_best xs < size L)%N /\
  forall j, (j < size L)%N -> L`_j <= L`_(argmax_from i best L`_best xs).
Proof.
elim: xs i best => [|x xs IH] i best hb hsz hd hmax /=.
  rewrite addn0 in hsz; subst i; split=> //.
have hx : L`_i = x.
  by rewrite -[i]addn0 -nth_drop hd.
have hd' : drop i.+1 L = xs.
  by rewrite -add1n -drop_drop hd /= drop0.
have hsz' : (i.+1 + size xs)%N = size L by rewrite -hsz /= addnS.
case: ifP => hlt.
  rewrite -hx; apply: IH => // j; rewrite ltnS leq_eqVlt => /orP [/eqP ->|hj] //.
  by apply: le_trans (hmax _ hj) _; rewrite hx ltW.
apply: IH => //; first by rewrite (ltn_trans hb).
move=> j; rewrite ltnS leq_eqVlt => /orP [/eqP ->|hj]; last exact: hmax.
by rewrite hx; move/negbT: hlt; rewrite -leNgt.
Qed.

Lemma np_argmax_max (xs : seq R) i :
  np_argmax xs = Some i ->
  (i < size xs)%N /\ forall j, (j < size xs)%N -> xs`_j <= xs`_i.
Proof.
case: xs => [|x xs] //= [<-].
have := @argmax_from_max (x :: xs) 1 0 xs; apply=> //=.
  by rewrite drop0.
by move=> [|j] //.
Qed.

Lemma get_robot_trajectory_some (names : seq string) (sv : seq R) :
  (6 <= size sv)%N ->
  exists tr, get_robot_trajectory_from_velocities names sv = Some tr.
Proof.
by case: sv => [|a [|b [|c [|d [|e [|f r]]]]]] //= _; eexists.
Qed.

Lemma size_col_seq m (v : 'cV[R]_m) : size (col_seq v) = m.
Proof. by rewrite size_map size_enum_ord. Qed.

Variable joint_limit_update : task -> R -> option task.
Variable joint_limit_set_task_active : task -> R -> option task.
Variable roll_pitch_update : task -> quaternion R -> option task.
Variable configuration_update : task -> seq R -> option task.
Variable yaw_update : task -> quaternion R -> option task.
Variable orientation_update : task -> quaternion R -> option task.
Variable end_effector_update :
  task -> seq R -> transform R -> transform R -> transform R -> option task.

Local Notation run_events :=
  (run_events pinv sqrt_ joint_limit_update joint_limit_set_task_active
     roll_pitch_update configuration_update yaw_update orientation_update
     end_effector_update).

Lemma update_set_branch (s : node) :
  initialized s -> has_set_tasks (hierarchies s) ->
  all (fun h => ~~ nilp h) (hierarchies s) ->
  all (fun t => tm t == 1%N) (active_set_tasks s) ->
  update pinv sqrt_ s =
    let sols := [seq v <- candidate_solutions pinv s | satisfies_set_tasks (active_set_tasks s) v] in
    match np_argmax [seq np_norm sqrt_ x | x <- sols] with
    | None => UReturn
    | Some i => publish_velocities s (nth 0 sols i)
    end.
Proof.
move=> hi hset hne h1; rewrite /update hi hset /=.
by rewrite (collect_solutions_filter h1 hne).
Qed.

Lemma argmax_from_first (L : seq R) i best xs :
  (best < i)%N -> (i + size xs)%N = size L -> drop i L = xs ->
  (forall j, (j < i)%N -> L`_j <= L`_best) ->
  (forall j, (j < best)%N -> L`_j < L`_best) ->
  forall j, (j < argmax_from i best L`_best xs)%N ->
    L`_j < L`_(argmax_from i best L`_best xs).
Proof.
elim: xs i best => [|x xs IH] i best hb hsz hd hmax hfirst /=; first exact: hfirst.
have hx : L`_i = x.
  by rewrite -[i]addn0 -nth_drop hd.
have hd' : drop i.+1 L = xs.
  by rewrite -add1n -drop_drop hd /= drop0.
have hsz' : (i.+1 + size xs)%N = size L by rewrite -hsz /= addnS.
case: ifP => hlt.
  rewrite -hx; apply: IH => //.
    move=> j; rewrite ltnS leq_eqVlt => /orP [/eqP ->|hj] //.
    by apply: le_trans (hmax _ hj) _; rewrite hx ltW.
  by move=> j hj; apply: le_lt_trans (hmax _ hj) _; rewrite hx.
apply: IH => //; first by rewrite (ltn_trans hb).
move=> j; rewrite ltnS leq_eqVlt => /orP [/eqP ->|hj]; last exact: hmax.
by rewrite hx; move/negbT: hlt; rewrite -leNgt.
Qed.

Lemma np_argmax_first (xs : seq R) i :
  np_argmax xs = Some i -> forall j, (j < i)%N -> xs`_j < xs`_i.
Proof.
case: xs => [|x xs] //= [<-].
have := @argmax_from_first (x :: xs) 1 0 xs; apply=> //=.
  by rewrite drop0.
by move=> [|j].
Qed.

(** C2 (as the code does it): with set tasks in the modes, each mode's
    solution is classified feasible exactly when every set task of the
    current [active_task_hierarchy] (the same set for every mode) passes the
    sign check; the published velocity is a feasible candidate whose norm is
    at least that of every feasible candidate, the first such one in mode
    order ([np.argmax] returns the first maximum: every earlier feasible
    candidate has a strictly smaller norm), and when none is feasible
    nothing is published.  (Set-task Jacobians are single rows, modes are
    non-empty and the system has at least the 6 vehicle degrees of
    freedom.) *)
Theorem update_selects_max_norm_feasible (s : node) :
  initialized s -> has_set_tasks (hierarchies s) ->
  all (fun h => ~~ nilp h) (hierarchies s) ->
  all (fun t => tm t == 1%N) (active_set_tasks s) ->
  (6 <= n)%N ->
  collect_solutions pinv (active_set_tasks s) (hierarchies s) =
    Some [seq v <- candidate_solutions pinv s | satisfies_set_tasks (active_set_tasks s) v] /\
  match update pinv sqrt_ s with
  | UPublish tr =>
      exists v, v \in candidate_solutions pinv s /\
        satisfies_set_tasks (active_set_tasks s) v /\
        (forall w, w \in candidate_solutions pinv s ->
           satisfies_set_tasks (active_set_tasks s) w -> np_norm sqrt_ w <= np_norm sqrt_ v) /\
        (exists i,
           let sols := [seq w <- candidate_solutions pinv s
                          | satisfies_set_tasks (active_set_tasks s) w] in
           (i < size sols)%N /\ v = nth 0 sols i /\
           forall j, (j < i)%N -> np_norm sqrt_ (nth 0 sols j) < np_norm sqrt_ v) /\
        get_robot_trajectory_from_velocities (chain_joint_names s) (col_seq v) = Some tr
  | UReturn =>
      forall w, w \in candidate_solutions pinv s -> ~~ satisfies_set_tasks (active_set_tasks s) w
  | URaise => False
  end.
Proof.
move=> hi hset hne h1 h6.
split; first exact: collect_solutions_filter.
rewrite (update_set_branch hi hset hne h1) /=.
set sols := [seq v <- _ | _].
case E: np_argmax => [i|].
  have [hi' hmax] := np_argmax_max E; rewrite size_map in hi'.
  have hin : nth 0 sols i \in sols by rewrite mem_nth.
  rewrite /publish_velocities.
  have [tr htr] : exists tr, get_robot_trajectory_from_velocities
                     (chain_joint_names s) (col_seq (nth 0 sols i)) = Some tr.
    by apply: get_robot_trajectory_some; rewrite size_col_seq.
  rewrite htr; exists (nth 0 sols i).
  move: (hin); rewrite mem_filter => /ssrbool.andP [hf hc].
  do 2!split=> //; split.
    move=> w hw hfw.
    have hws : w \in sols by rewrite mem_filter hfw hw.
    have := hmax (seq.index w sols); rewrite size_map index_mem => /(_ hws).
    by rewrite !(nth_map 0) ?index_mem // nth_index.
  split=> //; exists i; split=> //; split=> // j hj.
  have := np_argmax_first E hj.
  by rewrite !(nth_map 0) // (ltn_trans hj).
move=> w hw; apply/negP => hfw.
have hws : w \in sols by rewrite mem_filter hfw hw.
by move: E; case: sols hws.
Qed.

(** C3: when no candidate solution is feasible, [update] logs and returns
    without publishing, the tick leaves the node as it was, and the event
    loop carries on with the next callbacks as if the tick had not happened. *)
Theorem update_no_feasible_skips_cycle (s : node) :
  initialized s -> has_set_tasks (hierarchies s) ->
  all (fun h => ~~ nilp h) (hierarchies s) ->
  all (fun t => tm t == 1%N) (active_set_tasks s) ->
  (forall w, w \in candidate_solutions pinv s -> ~~ satisfies_set_tasks (active_set_tasks s) w) ->
  update pinv sqrt_ s = UReturn /\ tick pinv sqrt_ s = Some s /\
  forall evs, run_events (ETick :: evs) s = run_events evs s.
Proof.
move=> hi hset hne h1 hnone.
have hu : update pinv sqrt_ s = UReturn.
  rewrite (update_set_branch hi hset hne h1) /=.
  have -> : [seq v <- candidate_solutions pinv s | satisfies_set_tasks (active_set_tasks s) v] = [::].
    by apply/eqP; rewrite -[_ == _]negbK -has_filter; apply/hasPn.
  by [].
have ht : tick pinv sqrt_ s = Some s by rewrite /tick hu.
by do 2!split=> //; move=> evs; rewrite /= ht.
Qed.

(** C10: before both the robot description and a first state have been
    received, a control tick publishes nothing, solves nothing and leaves the
    node unchanged. *)
Theorem update_before_initialized (s : node) :
  ~~ initialized s ->
  update pinv sqrt_ s = UReturn /\ tick pinv sqrt_ s = Some s /\
  forall evs, run_events (ETick :: evs) s = run_events evs s.
Proof.
move=> hi.
have hu : update pinv sqrt_ s = UReturn by rewrite /update hi.
have ht : tick pinv sqrt_ s = Some s by rewrite /tick hu.
by do 2!split=> //; move=> evs; rewrite /= ht.
Qed.

End ControllerTheory.

(* ------------------------------------------------------------------ *)
(** ** Evaluations at concrete inputs *)
(* ------------------------------------------------------------------ *)

Lemma e0_row_tr_neq0 : e0_row^T != 0.
Proof.
apply/eqP => /matrixP /(_ 0 0); rewrite !mxE /= => /eqP.
by rewrite oner_eq0.
Qed.

Lemma eq_task_ex_increment :
  mp_full_row (jacobian eq_task_ex) *m task_rhs eq_task_ex = e0_row^T.
Proof. by rewrite task_rhs_eq_task_ex mulmx1 [jacobian _]/= mp_full_row_e0. Qed.

Lemma calculate_system_velocity_eq_task_ex :
  calculate_system_velocity (@mp_full_row rat) [:: eq_task_ex] = Some (e0_row^T + e0_row^T).
Proof. by rewrite calculate_system_velocity_one eq_task_ex_increment. Qed.

(** C1: on one equality task (Jacobian [e0_row], error [1], gain [1], no
    [desired_value_dot]) in a six-column system, the code returns
    [2 e0^T] while the recursion of the specification gives
    [v_1 = e0^T]. *)
Theorem calculate_system_velocity_diverges_from_recursion :
  calculate_system_velocity (@mp_full_row rat) [:: eq_task_ex] = Some (e0_row^T + e0_row^T) /\
  spec_system_velocity (@mp_full_row rat) [:: eq_task_ex] = e0_row^T /\
  calculate_system_velocity (@mp_full_row rat) [:: eq_task_ex] <>
    Some (spec_system_velocity (@mp_full_row rat) [:: eq_task_ex]).
Proof.
rewrite calculate_system_velocity_eq_task_ex spec_system_velocity_one eq_task_ex_increment.
do 2!split=> //.
move=> [] /eqP; rewrite -subr_eq0 addrK => /eqP h.
by move: e0_row_tr_neq0; rewrite h eqxx.
Qed.

Lemma col_seq_cV1 (c : 'cV[rat]_1) : col_seq c = [:: c 0 0].
Proof. by rewrite /col_seq enum_ordSl enum_ord0. Qed.

Lemma elementwise_cV1 (f : rat -> bool) (c : 'cV[rat]_1) : elementwise f c = [:: f (c 0 0)].
Proof. by rewrite /elementwise enum_ordSl enum_ord0. Qed.

Lemma neg_two_entry : (- (1%:M + 1%:M) : 'cV[rat]_1) 0 0 = - (1 + 1).
Proof. by rewrite !mxE. Qed.

Lemma node_ex2_solution :
  mode_solution (@mp_full_row rat) [:: set_task_ex2] = - (e0_row^T + e0_row^T).
Proof.
rewrite /mode_solution /= mulmx1 mulmx0 subr0 mp_full_row_e0.
by rewrite /task_rhs /= add0r scale1r mul1mx mulmxN mulmx1 opprD.
Qed.

Lemma np_isclose_neg2 (R : realFieldType) : np_isclose (- (1 + 1) : R) 0 = false.
Proof.
rewrite /np_isclose subr0 normr0 mulr0 addr0 normrN.
apply/negbTE; rewrite -ltNge.
have h1 : (10 ^+ 8 : R)^-1 <= 1.
  by rewrite invf_le1 ?exprn_gt0 ?exprn_ege1 ?ler1n ?ltr0n.
apply: (le_lt_trans h1).
by rewrite ger0_norm ?addr_ge0 ?ler01 // ltrDl ltr01.
Qed.

Lemma sign_check_cV1_eval (R : realFieldType) (sp : set_params R) (x : R) :
  [|| (current_value sp < lower sp) && all (fun p => 0 < p) [:: x],
      (upper sp < current_value sp) && all (fun p => p < 0) [:: x]
    | all (fun p => np_isclose p 0) [:: x]] =
  [|| (current_value sp < lower sp) && (0 < x), (upper sp < current_value sp) && (x < 0)
    | np_isclose x 0].
Proof. by rewrite /= !andbT. Qed.

Lemma node_ex2_infeasible (w : 'cV[rat]_6) :
  w \in candidate_solutions (@mp_full_row rat) node_ex2 ->
  ~~ satisfies_set_tasks (active_set_tasks node_ex2) w.
Proof.
rewrite /candidate_solutions.
have -> : hierarchies node_ex2 = [:: [:: set_task_ex2]] by [].
have -> : active_set_tasks node_ex2 = [:: set_task_ex2] by [].
rewrite inE => /eqP ->.
rewrite node_ex2_solution /satisfies_set_tasks /= andbT /sign_check.
rewrite [jacobian _]/= mulmxN mulmxDr e0_row_gram col_seq_cV1 neg_two_entry.
by rewrite sign_check_cV1_eval np_isclose_neg2 orbF.
Qed.

Lemma set_task_ex_rejects :
  all_satisfied (active_set_tasks (node_ex true)) (e0_row^T + e0_row^T) = Some false.
Proof.
have -> : active_set_tasks (node_ex true) = [:: set_task_ex] by [].
rewrite all_satisfied_single // /satisfies_set_tasks /= andbT /sign_check.
rewrite [jacobian _]/= mulNmx mulmxDr e0_row_gram col_seq_cV1 neg_two_entry.
by rewrite sign_check_cV1_eval np_isclose_neg2 orbF.
Qed.

Lemma mode_tasks_node_ex_eq : mode_tasks (node_ex true) [:: 0%N] = [:: eq_task_ex].
Proof. by []. Qed.

(** The trivial task updates used to run the callbacks at concrete inputs. *)
Definition keep1 (R : realFieldType) (X : Type) (t : task R 6) (_ : X) : option (task R 6) := Some t.

Definition keep_ee (R : realFieldType) (t : task R 6) (_ : seq R)
    (_ _ _ : transform R) : option (task R 6) := Some t.

(* ------------------------------------------------------------------ *)
(** ** Witnesses and counterexamples of the arbitration claims *)
(* ------------------------------------------------------------------ *)

Lemma e1_row_gram : e1_row *m e1_row^T = 1%:M.
Proof.
rewrite /e1_row trmx_delta mul_delta_mx.
by apply/matrixP => i j; rewrite !ord1 !mxE.
Qed.

Lemma mp_full_row_e1 : mp_full_row e1_row = e1_row^T.
Proof. by rewrite /mp_full_row e1_row_gram invmx1 mulmx1. Qed.

Lemma e0_e1_orth : e0_row *m e1_row^T = 0.
Proof.
rewrite /e0_row /e1_row trmx_delta mul_delta_mx_0 //.
by rewrite -val_eqE /= inordK.
Qed.

Lemma mode_solution_one_task (t : task rat 6) :
  mode_solution (@mp_full_row rat) [:: t] =
    mp_full_row (jacobian t) *m task_rhs t + mp_full_row (jacobian t) *m task_rhs t.
Proof. by rewrite /mode_solution /= mulmx1 mulmx0 subr0. Qed.

Lemma candidate_solutions_node_tie :
  candidate_solutions (@mp_full_row rat) node_tie =
    [:: e1_row^T + e1_row^T; e0_row^T + e0_row^T; e0_row^T + e0_row^T].
Proof.
rewrite /candidate_solutions.
have -> : hierarchies node_tie = [:: [:: eq_task_e1]; [:: eq_task_ex]; [:: set_task_pos]] by [].
rewrite /= !mode_solution_one_task.
have hr1 : task_rhs eq_task_e1 = 1%:M by rewrite /task_rhs /= add0r scale1r mul1mx.
have hr2 : task_rhs set_task_pos = 1%:M by rewrite /task_rhs /= add0r scale1r mul1mx.
rewrite hr1 hr2 task_rhs_eq_task_ex !mulmx1 [jacobian eq_task_e1]/= mp_full_row_e1.
by rewrite [jacobian _]/= mp_full_row_e0.
Qed.

Lemma np_isclose_zero (R : realFieldType) : np_isclose (0 : R) 0.
Proof.
rewrite /np_isclose subr0 normr0 mulr0 addr0.
by rewrite invr_ge0 exprn_ge0 // ler0n.
Qed.

Lemma set_task_pos_accepts_e1 :
  satisfies_set_tasks [:: set_task_pos] (e1_row^T + e1_row^T).
Proof.
rewrite /satisfies_set_tasks /= andbT /sign_check [jacobian _]/= mulmxDr e0_e1_orth addr0.
by rewrite col_seq_cV1 sign_check_cV1_eval mxE np_isclose_zero !orbT.
Qed.

Lemma set_task_pos_accepts_e0 :
  satisfies_set_tasks [:: set_task_pos] (e0_row^T + e0_row^T).
Proof.
rewrite /satisfies_set_tasks /= andbT /sign_check [jacobian _]/= mulmxDr e0_row_gram.
rewrite col_seq_cV1 sign_check_cV1_eval !mxE eqxx.
have h0 : current_value (SetParams (0 : rat) 1 2 true) < lower (SetParams (0 : rat) 1 2 true).
  exact: ltr01.
by rewrite h0 addr_gt0 ?ltr01.
Qed.

(** [np.argmax] on a constant tail keeps the first index. *)
Lemma argmax_from_ties (R : realFieldType) i best (x : R) xs :
  all (fun y => y == x) xs -> argmax_from i best x xs = best.
Proof.
elim: xs i => [|y xs IH] i //= /ssrbool.andP [/eqP -> h].
by rewrite ltxx IH.
Qed.

Lemma np_norm_double_delta (k : 'I_6) :
  np_norm (fun x : rat => x) ((delta_mx 0 k : 'M[rat]_(1, 6))^T + (delta_mx 0 k)^T) =
    (1 + 1) ^+ 2.
Proof.
rewrite /np_norm; under eq_bigr => i _ do rewrite !mxE eqxx /=.
rewrite (bigD1 k) //= eqxx big1 ?addr0 // => i hik.
by rewrite (negbTE hik) addr0 expr0n.
Qed.

(** C2 at [node_tie]: the three feasible solutions [2 e1^T], [2 e0^T],
    [2 e0^T] have the same norm, and the one of the first mode is published. *)
Lemma update_selects_max_norm_feasible_witness :
  initialized node_tie /\ has_set_tasks (hierarchies node_tie) /\
  all (fun h => ~~ nilp h) (hierarchies node_tie) /\
  all (fun t => tm t == 1%N) (active_set_tasks node_tie) /\ (6 <= 6)%N /\
  np_norm (fun x : rat => x) (e1_row^T + e1_row^T) =
    np_norm (fun x : rat => x) (e0_row^T + e0_row^T) /\
  (exists tr, update (@mp_full_row rat) (fun x : rat => x) node_tie = UPublish tr /\
     get_robot_trajectory_from_velocities (chain_joint_names node_tie)
       (col_seq (e1_row^T + e1_row^T)) = Some tr) /\
  collect_solutions (@mp_full_row rat) (active_set_tasks node_tie) (hierarchies node_tie) =
    Some [seq v <- candidate_solutions (@mp_full_row rat) node_tie
            | satisfies_set_tasks (active_set_tasks node_tie) v] /\
  match update (@mp_full_row rat) (fun x : rat => x) node_tie with
  | UPublish tr =>
      exists v, v \in candidate_solutions (@mp_full_row rat) node_tie /\
        satisfies_set_tasks (active_set_tasks node_tie) v /\
        (forall w, w \in candidate_solutions (@mp_full_row rat) node_tie ->
           satisfies_set_tasks (active_set_tasks node_tie) w ->
           np_norm (fun x : rat => x) w <= np_norm (fun x : rat => x) v) /\
        (exists i,
           let sols := [seq w <- candidate_solutions (@mp_full_row rat) node_tie
                          | satisfies_set_tasks (active_set_tasks node_tie) w] in
           (i < size sols)%N /\ v = nth 0 sols i /\
           forall j, (j < i)%N ->
             np_norm (fun x : rat => x) (nth 0 sols j) < np_norm (fun x : rat => x) v) /\
        get_robot_trajectory_from_velocities (chain_joint_names node_tie) (col_seq v) = Some tr
  | UReturn =>
      forall w, w \in candidate_solutions (@mp_full_row rat) node_tie ->
        ~~ satisfies_set_tasks (active_set_tasks node_tie) w
  | URaise => False
  end.
Proof.
have hi : initialized node_tie by [].
have hs : has_set_tasks (hierarchies node_tie) by [].
have hne : all (fun h => ~~ nilp h) (hierarchies node_tie) by [].
have h1 : all (fun t => tm t == 1%N) (active_set_tasks node_tie) by [].
have h6 : (6 <= 6)%N by [].
have hn1 : np_norm (fun x : rat => x) (e1_row^T + e1_row^T) = (1 + 1) ^+ 2.
  exact: np_norm_double_delta.
have hn0 : np_norm (fun x : rat => x) (e0_row^T + e0_row^T) = (1 + 1) ^+ 2.
  exact: np_norm_double_delta.
have hact : active_set_tasks node_tie = [:: set_task_pos] by [].
do 5!(split=> //).
split; first by rewrite hn1 hn0.
split.
  rewrite (@update_set_branch rat 6 (@mp_full_row rat) (fun x : rat => x) node_tie hi hs hne h1).
  have hf : [seq v <- [:: e1_row^T + e1_row^T; e0_row^T + e0_row^T; e0_row^T + e0_row^T]
              | satisfies_set_tasks [:: set_task_pos] v] =
            [:: e1_row^T + e1_row^T; e0_row^T + e0_row^T; e0_row^T + e0_row^T].
    apply/all_filterP/allP => v; rewrite !inE => /orP [/eqP ->|/orP [/eqP ->|/eqP ->]].
    - exact: set_task_pos_accepts_e1.
    - exact: set_task_pos_accepts_e0.
    - exact: set_task_pos_accepts_e0.
  cbv zeta; rewrite candidate_solutions_node_tie hact hf.
  rewrite [map _ _]/= hn1 hn0 /np_argmax argmax_from_ties ?eqxx // /publish_velocities.
  have [tr htr] := @get_robot_trajectory_some rat (chain_joint_names node_tie)
    (col_seq (e1_row^T + e1_row^T)) (eq_ind_r (fun m => (6 <= m)%N) h6 (@size_col_seq rat 6 _)).
  by rewrite htr; exists tr.
exact: (@update_selects_max_norm_feasible rat 6 (@mp_full_row rat) (fun x : rat => x)
          node_tie hi hs hne h1 h6).
Defined.

(** C2 (as stated): the mode [[eq]] of [node_ex true] holds no set task, so
    under the claim its solution [2 e0^T] is feasible; the code checks it
    against the active set task of the hierarchy, which rejects it. *)
Lemma update_checks_modes_own_set_tasks_counterexample :
  [:: 0%N] \in modes (node_ex true) (tasks (node_ex true)) /\
  calculate_system_velocity (@mp_full_row rat) (mode_tasks (node_ex true) [:: 0%N]) =
    Some (e0_row^T + e0_row^T) /\
  ~~ has (@is_set_task rat 6) (mode_tasks (node_ex true) [:: 0%N]) /\
  satisfies_set_tasks [seq t <- mode_tasks (node_ex true) [:: 0%N] | is_set_task t]
    (e0_row^T + e0_row^T) /\
  all_satisfied (active_set_tasks (node_ex true)) (e0_row^T + e0_row^T) = Some false.
Proof.
rewrite mode_tasks_node_ex_eq calculate_system_velocity_eq_task_ex set_task_ex_rejects.
by [].
Qed.

(** The hypotheses of C3 hold for [node_ex2]: no mode solution is feasible,
    nothing is published and the tick keeps the node. *)
Lemma update_no_feasible_skips_cycle_witness :
  update (@mp_full_row rat) (fun x : rat => x) node_ex2 = UReturn /\
  tick (@mp_full_row rat) (fun x : rat => x) node_ex2 = Some node_ex2.
Proof.
have h := @update_no_feasible_skips_cycle rat 6 (@mp_full_row rat) (fun x : rat => x)
  (@keep1 rat rat) (@keep1 rat rat) (@keep1 rat (quaternion rat))
  (@keep1 rat (seq rat)) (@keep1 rat (quaternion rat)) (@keep1 rat (quaternion rat))
  (@keep_ee rat) node_ex2 isT isT isT isT node_ex2_infeasible.
by case: h => hu [ht _]; split.
Defined.

(** C10 at [node_ex false]. *)
Lemma update_before_initialized_witness :
  ~~ initialized (node_ex false) /\
  update (@mp_full_row rat) (fun x : rat => x) (node_ex false) = UReturn /\
  tick (@mp_full_row rat) (fun x : rat => x) (node_ex false) = Some (node_ex false).
Proof.
have h := @update_before_initialized rat 6 (@mp_full_row rat) (fun x : rat => x)
  (@keep1 rat rat) (@keep1 rat rat) (@keep1 rat (quaternion rat))
  (@keep1 rat (seq rat)) (@keep1 rat (quaternion rat)) (@keep1 rat (quaternion rat))
  (@keep_ee rat) (node_ex false) isT.
by case: h => hu [ht _]; split.
Defined.

(* ------------------------------------------------------------------ *)
(** ** The trajectory message *)
(* ------------------------------------------------------------------ *)

(** C5 (as the code does it): the leading six entries become the twist's
    linear x/y/z and angular x/y/z; the joint rates are [0.0] followed by
    the trailing entries in their order in the system velocity; the joint
    names are ["alpha_axis_a"] followed by the chain's names reversed. *)
Theorem get_robot_trajectory_layout (R : realFieldType) (names : seq string)
    (lx ly lz ax ay az : R) (rest : seq R) :
  get_robot_trajectory_from_velocities names [:: lx, ly, lz, ax, ay, az & rest] =
  Some (Trajectory [:: "vehicle"%string] [:: Twist lx ly lz ax ay az]
          ("alpha_axis_a"%string :: rev names) (0 :: rest)).
Proof. by rewrite /get_robot_trajectory_from_velocities /= drop0. Qed.

(** C5 (as stated): with trailing entries [1, 2] the joint rates are
    [0, 1, 2], not the reversed [0, 2, 1], while the names are reversed. *)
Lemma get_robot_trajectory_rates_not_reversed_counterexample :
  omap (@arm_velocities rat)
    (get_robot_trajectory_from_velocities [:: "axis_b"%string; "axis_c"%string]
       [:: 0; 0; 0; 0; 0; 0; 1; 1 + 1]) = Some [:: 0; 1; 1 + 1] /\
  omap (@joint_names rat)
    (get_robot_trajectory_from_velocities [:: "axis_b"%string; "axis_c"%string]
       [:: 0; 0; 0; 0; 0; 0; 1; 1 + 1]) =
    Some [:: "alpha_axis_a"%string; "axis_c"%string; "axis_b"%string] /\
  [:: 0; 1; 1 + 1] <> [:: 0; 1 + 1; 1 : rat].
Proof.
by do 2!split=> //.
Qed.

(* ------------------------------------------------------------------ *)
(** ** [update_context] *)
(* ------------------------------------------------------------------ *)

Section ContextTheory.

Variable R : realFieldType.
Variable n : nat.

Local Notation task := (task R n).

Variable joint_limit_update : task -> R -> option task.
Variable joint_limit_set_task_active : task -> R -> option task.
Variable roll_pitch_update : task -> quaternion R -> option task.
Variable configuration_update : task -> seq R -> option task.
Variable yaw_update : task -> quaternion R -> option task.
Variable orientation_update : task -> quaternion R -> option task.
Variable end_effector_update :
  task -> seq R -> transform R -> transform R -> transform R -> option task.

Local Notation update_task_context :=
  (update_task_context joint_limit_update joint_limit_set_task_active
     roll_pitch_update configuration_update yaw_update orientation_update
     end_effector_update).

Local Notation update_context_tasks :=
  (update_context_tasks joint_limit_update joint_limit_set_task_active
     roll_pitch_update configuration_update yaw_update orientation_update
     end_effector_update).

Local Notation robot_state_cb :=
  (robot_state_cb joint_limit_update joint_limit_set_task_active
     roll_pitch_update configuration_update yaw_update orientation_update
     end_effector_update).

Lemma update_context_tasks_cat st lookup (pre pre' ts : seq task) :
  update_context_tasks st lookup pre = CtxOk pre' ->
  update_context_tasks st lookup (pre ++ ts) =
    match update_context_tasks st lookup ts with
    | CtxOk us => CtxOk (pre' ++ us)
    | CtxRaise us vs => CtxRaise (pre' ++ us) vs
    end.
Proof.
elim: pre pre' => [|t pre IH] pre' /=; first by case=> <-; case: update_context_tasks.
case: update_task_context => [t'|] //.
case E: update_context_tasks => [us|us vs] // [<-].
by rewrite (IH _ E); case: update_context_tasks.
Qed.

(** C6 (as the code does it).  Let the tasks [pre] before a task [t] be
    updated without exception.  (1) When [t] is an end-effector pose task
    and one of its two transform lookups raises [TransformException], the
    iteration logs and continues: [t] is left as it was and the loop goes on
    with the remaining tasks [post].  (2) Any other failure of the iteration
    of [t] is not caught: the pass stops with the exception, [post] is never
    visited, and the exception leaves [robot_state_cb].  (3) Among such
    failures: a vehicle or end-effector task on a state without vehicle
    transforms ([transforms[0]] raises [IndexError]), and (4) a [JointLimit]
    task whose index [joint - 6] is outside [position[1:]]. *)
Theorem update_context_skips_failed_lookup (st : robot_state R)
    (lookup : string -> string -> option (transform R)) (t : task)
    (pre pre' post : seq task) :
  update_context_tasks st lookup pre = CtxOk pre' ->
  (kind t = KEndEffectorPose -> ~~ nilp (vehicle_transforms st) ->
   lookup "base_link"%string "alpha_base_link"%string = None \/
   lookup "alpha_ee_base_link"%string "map"%string = None ->
   update_task_context st lookup t = Some t /\
   update_context_tasks st lookup (pre ++ t :: post) =
     match update_context_tasks st lookup post with
     | CtxOk us => CtxOk (pre' ++ t :: us)
     | CtxRaise us vs => CtxRaise (pre' ++ t :: us) vs
     end) /\
  (update_task_context st lookup t = None ->
   update_context_tasks st lookup (pre ++ t :: post) = CtxRaise pre' post /\
   forall s : node R n, tasks s = pre ++ t :: post -> tf_lookup s = lookup ->
     robot_state_cb s st = None) /\
  (nilp (vehicle_transforms st) ->
   kind t = KVehicleRollPitch \/ kind t = KVehicleYaw \/
   kind t = KVehicleOrientation \/ kind t = KEndEffectorPose ->
   update_task_context st lookup t = None) /\
  (forall joint, kind t = KJointLimit joint ->
   py_norm_index (size (behead (joint_positions st))) (joint - 6) = None ->
   update_task_context st lookup t = None).
Proof.
move=> hpre; split.
  move=> hk hv hl.
  have hu : update_task_context st lookup t = Some t.
    rewrite /update_task_context hk.
    case: (vehicle_transforms st) hv => [|v vs] //= _.
    by case: hl => ->; [|case: (lookup "base_link"%string "alpha_base_link"%string)].
  split=> //.
  rewrite (update_context_tasks_cat _ hpre) /= hu.
  by case: update_context_tasks.
split.
  move=> hu.
  have hr : update_context_tasks st lookup (pre ++ t :: post) = CtxRaise pre' post.
    by rewrite (update_context_tasks_cat _ hpre) /= hu cats0.
  split=> // s hs hl.
  by rewrite /robot_state_cb hs hl hr.
split.
  rewrite /update_task_context; case: (vehicle_transforms st) => [|v vs] //= _.
  by case=> [->|[->|[->|->]]].
move=> joint hk hi.
by rewrite /update_task_context hk hi.
Qed.

End ContextTheory.

(** C6 at concrete inputs with tasks before and after the failing one.  On a
    state with one vehicle transform and no transform in the buffer, the
    end-effector task between an equality task and a yaw task is skipped and
    the yaw task is still updated; on a state without vehicle transforms the
    yaw task between two equality tasks raises and the last task is never
    visited. *)
Lemma update_context_skips_failed_lookup_witness :
  update_context_tasks (@keep1 rat rat) (@keep1 rat rat) (@keep1 rat (quaternion rat))
    (@keep1 rat (seq rat)) (@keep1 rat (quaternion rat)) (@keep1 rat (quaternion rat))
    (@keep_ee rat) (RobotState [::] [:: identity_transform]) (fun _ _ => None)
    [:: eq_task_ex; ee_task_ex; yaw_task_ex] =
    CtxOk [:: eq_task_ex; ee_task_ex; yaw_task_ex] /\
  update_context_tasks (@keep1 rat rat) (@keep1 rat rat) (@keep1 rat (quaternion rat))
    (@keep1 rat (seq rat)) (@keep1 rat (quaternion rat)) (@keep1 rat (quaternion rat))
    (@keep_ee rat) (RobotState [::] [::]) (fun _ _ => None)
    [:: eq_task_ex; yaw_task_ex; eq_task_ex] =
    CtxRaise [:: eq_task_ex] [:: eq_task_ex].
Proof.
have h1 := @update_context_skips_failed_lookup rat 6
  (@keep1 rat rat) (@keep1 rat rat) (@keep1 rat (quaternion rat))
  (@keep1 rat (seq rat)) (@keep1 rat (quaternion rat)) (@keep1 rat (quaternion rat))
  (@keep_ee rat) (RobotState [::] [:: identity_transform]) (fun _ _ => None)
  ee_task_ex [:: eq_task_ex] [:: eq_task_ex] [:: yaw_task_ex] erefl.
have h2 := @update_context_skips_failed_lookup rat 6
  (@keep1 rat rat) (@keep1 rat rat) (@keep1 rat (quaternion rat))
  (@keep1 rat (seq rat)) (@keep1 rat (quaternion rat)) (@keep1 rat (quaternion rat))
  (@keep_ee rat) (RobotState [::] [::]) (fun _ _ => None)
  yaw_task_ex [:: eq_task_ex] [:: eq_task_ex] [:: eq_task_ex] erefl.
split.
  exact: (proj2 ((proj1 h1) erefl isT (or_introl erefl))).
exact: (proj1 ((proj1 (proj2 h2)) erefl)).
Defined.

(** A node whose tasks are a vehicle yaw task followed by an equality task. *)
Definition node_yaw_ex : node rat 6 :=
  @Node rat 6 true true [:: "axis_b"%string] [:: yaw_task_ex; eq_task_ex] (fun _ => [:: [:: 0%N; 1%N]])
    (RobotState [::] [::]) (fun _ _ => None) [::].

(** C6 (as stated): on a state message without vehicle transforms, the yaw
    task's [transforms[0]] raises [IndexError]; the pass stops there, the
    following task is not visited and the exception leaves [robot_state_cb]. *)
Lemma update_context_failure_propagates_counterexample :
  update_context_tasks (@keep1 rat rat) (@keep1 rat rat) (@keep1 rat (quaternion rat))
    (@keep1 rat (seq rat)) (@keep1 rat (quaternion rat)) (@keep1 rat (quaternion rat))
    (@keep_ee rat) (RobotState [::] [::]) (fun _ _ => None) [:: yaw_task_ex; eq_task_ex] =
    CtxRaise [::] [:: eq_task_ex] /\
  robot_state_cb (@keep1 rat rat) (@keep1 rat rat) (@keep1 rat (quaternion rat))
    (@keep1 rat (seq rat)) (@keep1 rat (quaternion rat)) (@keep1 rat (quaternion rat))
    (@keep_ee rat) node_yaw_ex (RobotState [::] [::]) = None.
Proof. by []. Qed.

(* ------------------------------------------------------------------ *)
(** ** [jacobian.py] *)
(* ------------------------------------------------------------------ *)

(** C7: for a column [joint_index] of the [1 x (6 + n)] system row, the code
    never returns the unit row: [J[joint_index] = 1] selects a row, so index
    [0] fills the whole row with ones and every other index raises
    [IndexError]. *)
Theorem calculate_joint_limit_jacobian_not_unit_row (R : realFieldType)
    (joint_index num_manipulator_joints : nat) :
  (joint_index < 6 + num_manipulator_joints)%N ->
  @calculate_joint_limit_jacobian R (Posz joint_index) num_manipulator_joints <>
    Some (unit_row R joint_index num_manipulator_joints) /\
  @calculate_joint_limit_jacobian R (Posz joint_index) num_manipulator_joints =
    (if joint_index == 0%N then Some [:: nseq (6 + num_manipulator_joints) 1] else None).
Proof.
move=> _; rewrite /calculate_joint_limit_jacobian.
case: joint_index => [|j] //=.
rewrite size_nseq; split=> //; case=> /eqP.
by rewrite oner_eq0.
Qed.

(** The hypothesis of C7 at [joint_index = 6], [num_manipulator_joints = 4]. *)
Lemma calculate_joint_limit_jacobian_not_unit_row_witness :
  (6 < 6 + 4)%N /\ @calculate_joint_limit_jacobian rat (Posz 6) 4 = None.
Proof.
split; first by [].
exact: (proj2 (@calculate_joint_limit_jacobian_not_unit_row rat 6 4 isT)).
Defined.

(** C8: [calculate_vehicle_manipulator_collision_avoidance_jacobian] returns
    [None] for every plane and every joint-angle vector. *)
Theorem calculate_vehicle_manipulator_collision_avoidance_jacobian_none
    (R : realFieldType) (sqrt_ : R -> R) k (manipulator_jacobian : 'rV[R]_k -> 'M[R]_(3 + 3, k))
    (plane : vec3 R * vec3 R * vec3 R) (joint_angles : 'rV[R]_k) :
  calculate_vehicle_manipulator_collision_avoidance_jacobian sqrt_ manipulator_jacobian
    plane joint_angles = PyNone.
Proof. by case: plane => [[p1 p2] p3]. Qed.

(* ------------------------------------------------------------------ *)
(** ** The vehicle Jacobians and the skew-matrix helper *)
(* ------------------------------------------------------------------ *)

Section VehicleJacobianTheory.

Variable R : realFieldType.

Lemma np_array33_mul (a b : seq (seq R)) :
  np_array33 a *m np_array33 b =
  \matrix_(i < 3, j < 3) (nth 0 (nth [::] a i) 0 * nth 0 (nth [::] b 0) j +
                          nth 0 (nth [::] a i) 1 * nth 0 (nth [::] b 1) j +
                          nth 0 (nth [::] a i) 2 * nth 0 (nth [::] b 2) j).
Proof.
apply/matrixP => i j; rewrite !mxE !big_ord_recl big_ord0 !mxE addr0 /=.
by rewrite addrA.
Qed.

Lemma div_mul_cancel (c x y : R) : c != 0 -> x / c * (c * y) = x * y.
Proof. by move=> hc; rewrite -mulrA mulKf. Qed.

(** The inverse of the angular velocity Jacobian away from [cos pitch = 0]. *)
Lemma angular_velocity_jacobian_left_inverse (sr cr sp cp : R) :
  sr ^+ 2 + cr ^+ 2 = 1 -> cp != 0 ->
  np_array33 [:: [:: 1; sr * sp / cp; cr * sp / cp]; [:: 0; cr; - sr]; [:: 0; sr / cp; cr / cp]] *m
  np_array33 [:: [:: 1; 0; - sp]; [:: 0; cr; cp * sr]; [:: 0; - sr; cp * cr]] = 1%:M.
Proof.
move=> hpy hcp.
rewrite np_array33_mul; apply/matrixP => i j; rewrite !mxE.
case: i => [[|[|[|i]]] hi] //; case: j => [[|[|[|j]]] hj] //=;
  rewrite ?(mulr0, mul0r, mul1r, mulr1, add0r, addr0, mulrN, mulNr, opprK)
          ?(div_mul_cancel _ _ hcp).
- by [].
- by rewrite mulrAC [cr * sp / cp * sr]mulrAC [sr * sp * cr]mulrAC [cr * sp * sr]mulrAC
     [sr * cr]mulrC subrr.
- rewrite [sr * sp * sr]mulrAC [cr * sp * cr]mulrAC -!expr2.
  by rewrite -addrA -mulrDl hpy mul1r addNr.
- by [].
- by rewrite -!expr2 addrC hpy.
- by rewrite mulrCA [sr * (cp * cr)]mulrCA [sr * cr]mulrC subrr.
- by [].
- by rewrite mulrAC [cr / cp * sr]mulrAC [sr * cr]mulrC subrr.
- by rewrite -!expr2 hpy.
Qed.

Lemma invmx_left_inverse (A B : 'M[R]_3) : B *m A = 1%:M -> A \in unitmx /\ invmx A = B.
Proof.
move=> h; have [hB hA] := mulmx1_unit h; split=> //.
by rewrite -[invmx A]mul1mx -h -mulmxA mulmxV // mulmx1.
Qed.

(** At [cos pitch = 0] the angular velocity Jacobian is singular. *)
Lemma angular_velocity_jacobian_singular (sr cr sp : R) :
  np_array33 [:: [:: 1; 0; - sp]; [:: 0; cr; 0 * sr]; [:: 0; - sr; 0 * cr]] \notin unitmx.
Proof.
apply/negP => hU.
set J := np_array33 _ in hU.
pose x : 'cV[R]_3 := \col_(i < 3) nth 0 [:: sp; 0; 1] i.
have hJx : J *m x = 0.
  apply/matrixP => i j; rewrite !mxE !big_ord_recl big_ord0 !mxE.
  case: i => [[|[|[|i]]] hi] //=;
    by rewrite ?(mulr0, mul0r, mul1r, mulr1, add0r, addr0, mulNr) ?subrr.
have : x = 0 by rewrite -[x]mul1mx -(mulVmx hU) -mulmxA hJx mulmx0.
move/matrixP => /(_ (inord 2) 0); rewrite !mxE inordK //= => /eqP.
by rewrite oner_eq0.
Qed.

Variables sin_ cos_ : R -> R.
Variable quaternion_to_euler : quaternion R -> R * R * R.
Variable quaternion_to_matrix : quaternion R -> 'M[R]_3.

Lemma angular_columns_mul p nmj (B : 'M[R]_(p, 3)) (nu w : 'cV[R]_3) (qd : 'cV[R]_nmj) :
  angular_columns nmj B *m col_mx nu (col_mx w qd) = B *m w.
Proof.
by rewrite /angular_columns (@mul_row_col R p 3 (3 + nmj) 1) mul_row_col !mul0mx add0r addr0.
Qed.

(** [calculate_vehicle_yaw_jacobian] in closed form: whenever the roll's sine
    and cosine satisfy [sin^2 + cos^2 = 1], the inverse of the angular velocity
    Jacobian exists exactly when [cos pitch <> 0]; then the yaw row is
    [(0, sin roll / cos pitch, cos roll / cos pitch)] in columns 3..5 and zero
    elsewhere, and at [cos pitch = 0] [np.linalg.inv] raises. *)
Theorem calculate_vehicle_yaw_jacobian_formula (rot : quaternion R) (roll pitch yaw : R)
    (num_manipulator_joints : nat) :
  quaternion_to_euler rot = (roll, pitch, yaw) ->
  sin_ roll ^+ 2 + cos_ roll ^+ 2 = 1 ->
  calculate_vehicle_yaw_jacobian sin_ cos_ quaternion_to_euler rot num_manipulator_joints =
    if cos_ pitch == 0 then None
    else Some (angular_columns num_manipulator_joints
                 (\row_(j < 3) nth 0 [:: 0; sin_ roll / cos_ pitch; cos_ roll / cos_ pitch] j)).
Proof.
move=> he hpy.
rewrite /calculate_vehicle_yaw_jacobian /calculate_vehicle_angular_velocity_jacobian he.
case: eqP => hcp.
  rewrite hcp; by rewrite (negbTE (angular_velocity_jacobian_singular _ _ _)).
have [hU ->] := invmx_left_inverse
  (angular_velocity_jacobian_left_inverse (sin_ pitch) hpy (introN eqP hcp)).
rewrite hU; congr (Some (angular_columns _ _)).
apply/matrixP => i j; rewrite !mxE !big_ord_recl big_ord0 !mxE.
case: j => [[|[|[|j]]] hj] //=;
  by rewrite ?(mulr0, mul0r, mul1r, mulr1, add0r, addr0).
Qed.


(** [calculate_vehicle_roll_pitch_jacobian] in closed form: when [pinv]
    agrees with the inverse on invertible matrices (as [np.linalg.pinv] does)
    and [cos pitch <> 0], columns 3..5 hold the first two rows of the inverse
    of the angular velocity Jacobian,
    [(1, sin roll tan pitch, cos roll tan pitch)] and [(0, cos roll, - sin roll)]. *)
Theorem calculate_vehicle_roll_pitch_jacobian_formula
    (pinv : forall p q, 'M[R]_(p, q) -> 'M[R]_(q, p))
    (rot : quaternion R) (roll pitch yaw : R) (num_manipulator_joints : nat) :
  (forall A : 'M[R]_3, A \in unitmx -> pinv _ _ A = invmx A) ->
  quaternion_to_euler rot = (roll, pitch, yaw) ->
  sin_ roll ^+ 2 + cos_ roll ^+ 2 = 1 -> cos_ pitch != 0 ->
  calculate_vehicle_roll_pitch_jacobian sin_ cos_ quaternion_to_euler pinv rot
    num_manipulator_joints =
  angular_columns num_manipulator_joints
    (\matrix_(i < 2, j < 3)
       nth 0 (nth [::] [:: [:: 1; sin_ roll * sin_ pitch / cos_ pitch;
                               cos_ roll * sin_ pitch / cos_ pitch];
                           [:: 0; cos_ roll; - sin_ roll]] i) j).
Proof.
move=> hp he hpy hcp.
rewrite /calculate_vehicle_roll_pitch_jacobian /calculate_vehicle_angular_velocity_jacobian he.
have [hU hinv] := invmx_left_inverse
  (angular_velocity_jacobian_left_inverse (sin_ pitch) hpy hcp).
rewrite hp // hinv; congr (angular_columns _ _).
apply/matrixP => i j; rewrite !mxE !big_ord_recl big_ord0 !mxE.
case: i => [[|[|i]] hi] //; case: j => [[|[|[|j]]] hj] //=;
  by rewrite ?(mulr0, mul0r, mul1r, mulr1, add0r, addr0).
Qed.

(** [calculate_vehicle_orientation_jacobian] maps a system velocity
    [(nu, w, qd)] to the rotated vehicle angular velocity [R w]: the vehicle
    linear velocity and the joint rates do not contribute. *)
Theorem calculate_vehicle_orientation_jacobian_velocity (rot_base_to_map : transform R)
    (num_manipulator_joints : nat) (nu w : 'cV[R]_3) (qd : 'cV[R]_num_manipulator_joints) :
  calculate_vehicle_orientation_jacobian quaternion_to_matrix rot_base_to_map
    num_manipulator_joints *m col_mx nu (col_mx w qd) =
  quaternion_to_matrix (rotation rot_base_to_map) *m w.
Proof. exact: angular_columns_mul. Qed.

Lemma ord3_1 : (lift ord0 ord0 : 'I_3) = inord 1.
Proof. by apply/val_inj; rewrite /= inordK. Qed.

Lemma ord3_2 : (lift ord0 (lift ord0 ord0) : 'I_3) = inord 2.
Proof. by apply/val_inj; rewrite /= inordK. Qed.

Lemma get_skew_matrix_cross_col (x : 'rV[R]_3) (y : 'cV[R]_3) :
  get_skew_matrix x *m y = (np_cross x y^T)^T.
Proof.
apply/matrixP => i j; rewrite !mxE !big_ord_recl big_ord0 !mxE !ord1.
case: i => [[|[|[|i]]] hi] //=; rewrite ord3_1 ord3_2 !mul0r ?add0r ?addr0 !mulNr //.
- by rewrite addrC.
- by rewrite addrC.
Qed.

(** The local [get_skew_matrix] of [calculate_uvms_jacobian] is the matrix
    of the cross product: [get_skew_matrix(x) @ y = np.cross(x, y)]. *)
Theorem get_skew_matrix_cross (x : 'rV[R]_3) (y : 'cV[R]_3) :
  get_skew_matrix x *m y = (np_cross x y^T)^T.
Proof. exact: get_skew_matrix_cross_col. Qed.

End VehicleJacobianTheory.


Lemma pythagoras_zero_one : (0 : rat) ^+ 2 + 1 ^+ 2 = 1.
Proof. by rewrite expr0n expr1n add0r. Qed.

Lemma mp_full_row_unit (R : realFieldType) (A : 'M[R]_3) :
  A \in unitmx -> mp_full_row A = invmx A.
Proof.
move=> hU; have hAA : A *m A^T \in unitmx by rewrite unitmx_mul unitmx_tr hU.
by rewrite /mp_full_row -[invmx A]mulmx1 -(mulmxV hAA) !mulmxA mulVmx // mul1mx.
Qed.

(** The hypotheses of the yaw formula at a level vehicle ([sin = 0],
    [cos = 1], roll = pitch = yaw = 0). *)
Lemma calculate_vehicle_yaw_jacobian_formula_witness :
  (fun _ : quaternion rat => ((0 : rat), (0 : rat), (0 : rat))) (Quaternion 0 0 0 1) = (0, 0, 0) /\
  (fun _ : rat => (0 : rat)) 0 ^+ 2 + (fun _ : rat => (1 : rat)) 0 ^+ 2 = 1 /\
  calculate_vehicle_yaw_jacobian (fun _ : rat => 0) (fun _ : rat => 1)
    (fun _ : quaternion rat => (0, 0, 0)) (Quaternion 0 0 0 1) 4 =
  if (1 : rat) == 0 then None
  else Some (angular_columns 4 (\row_(j < 3) nth 0 [:: 0; 0 / 1; 1 / 1] j)).
Proof.
split; first by [].
split; first exact: pythagoras_zero_one.
exact: (@calculate_vehicle_yaw_jacobian_formula rat (fun _ => 0) (fun _ => 1)
          (fun _ => (0, 0, 0)) (Quaternion 0 0 0 1) 0 0 0 4 erefl pythagoras_zero_one).
Defined.

(** The hypotheses of the roll-pitch formula at a level vehicle, with the
    full-row-rank pseudoinverse [A^T (A A^T)^-1]. *)
Lemma calculate_vehicle_roll_pitch_jacobian_formula_witness :
  (forall A : 'M[rat]_3, A \in unitmx -> mp_full_row A = invmx A) /\
  (fun _ : rat => (1 : rat)) 0 != 0 /\
  calculate_vehicle_roll_pitch_jacobian (fun _ : rat => 0) (fun _ : rat => 1)
    (fun _ : quaternion rat => (0, 0, 0)) (@mp_full_row rat) (Quaternion 0 0 0 1) 4 =
  angular_columns 4
    (\matrix_(i < 2, j < 3)
       nth 0 (nth [::] [:: [:: 1; 0 * 0 / 1; 1 * 0 / 1]; [:: 0; 1; - 0]] i) j).
Proof.
split; first exact: mp_full_row_unit.
split; first exact: oner_neq0.
exact: (@calculate_vehicle_roll_pitch_jacobian_formula rat (fun _ => 0) (fun _ => 1)
          (fun _ => (0, 0, 0)) (@mp_full_row rat) (Quaternion 0 0 0 1) 0 0 0 4
          (@mp_full_row_unit rat) erefl pythagoras_zero_one (oner_neq0 _)).
Defined.

(* ------------------------------------------------------------------ *)
(** ** More of the solver, [update] and [update_context] *)
(* ------------------------------------------------------------------ *)

Section ExtraSolverTheory.

Variable R : realFieldType.
Variable n : nat.
Variable pinv : forall p q, 'M[R]_(p, q) -> 'M[R]_(q, p).

Lemma augmented_mul_eq0 (js : seq (jac_entry R n)) m (B : 'M[R]_(n, m)) :
  (projT2 (construct_augmented_jacobian js) *m B == 0) =
  all (fun j => projT2 j *m B == 0) js.
Proof.
elim: js => [|j js IH] /=; first by rewrite mul0mx eqxx.
by rewrite mul_col_mx col_mx_eq0 IH.
Qed.

(** [construct_augmented_jacobian] stacks the Jacobians with [np.vstack]:
    the stacked matrix maps [B] to zero exactly when every Jacobian of the
    list does. *)
Theorem construct_augmented_jacobian_kernel (js : seq (jac_entry R n)) m (B : 'M[R]_(n, m)) :
  (projT2 (construct_augmented_jacobian js) *m B == 0) =
  all (fun j => projT2 j *m B == 0) js.
Proof. exact: augmented_mul_eq0. Qed.

(** [calculate_nullspace] of the stacked Jacobians of the tasks already
    solved annihilates each of them ([J_i N = 0]) as soon as the
    pseudoinverse satisfies the first Moore-Penrose equation
    [A pinv(A) A = A]: velocities projected through [N] do not disturb
    higher-priority tasks. *)
Theorem calculate_nullspace_annihilates_previous (js : seq (jac_entry R n)) :
  projT2 (construct_augmented_jacobian js) *m pinv (projT2 (construct_augmented_jacobian js))
    *m projT2 (construct_augmented_jacobian js) = projT2 (construct_augmented_jacobian js) ->
  all (fun j => projT2 j *m calculate_nullspace pinv (projT2 (construct_augmented_jacobian js)) == 0) js.
Proof.
move=> hP; rewrite -augmented_mul_eq0 /calculate_nullspace mulmxBr mulmx1 mulmxA hP.
by rewrite subrr.
Qed.

Lemma calculate_system_velocity_rec_zero (h : seq (task R n)) prev (N : 'M[R]_n) :
  all (fun t => task_rhs t == 0) h ->
  calculate_system_velocity_rec pinv h 0 prev N = 0.
Proof.
elim: h prev N => [|t h IH] prev N //= /ssrbool.andP [/eqP ht hh].
by rewrite ht mulmx0 subrr mulmx0 IH // addr0.
Qed.

(** When every task of a non-empty hierarchy has a zero right-hand side
    [t_dot + K e] (no error and no desired rate), [calculate_system_velocity]
    returns the zero velocity. *)
Theorem calculate_system_velocity_zero_rhs (h : seq (task R n)) :
  ~~ nilp h -> all (fun t => task_rhs t == 0) h ->
  calculate_system_velocity pinv h = Some 0.
Proof.
case: h => [|t h] // _ hall.
by rewrite /calculate_system_velocity calculate_system_velocity_rec_zero.
Qed.

End ExtraSolverTheory.

Lemma e0_jacobians_augmented : projT2 (construct_augmented_jacobian e0_jacobians) = e0_row.
Proof.
apply/matrixP => i j; rewrite /= mxE; case: splitP => [i' hi|i' hi]; last by have := ltn_ord i'; rewrite ltn0.
by congr (e0_row _ j); apply: val_inj; rewrite /= hi.
Qed.

(** One previously solved task with Jacobian [e0_row] and the full-row-rank
    pseudoinverse. *)
Lemma calculate_nullspace_annihilates_previous_witness :
  projT2 (construct_augmented_jacobian e0_jacobians) *m
    mp_full_row (projT2 (construct_augmented_jacobian e0_jacobians))
    *m projT2 (construct_augmented_jacobian e0_jacobians) =
    projT2 (construct_augmented_jacobian e0_jacobians) /\
  all (fun j => projT2 j *m calculate_nullspace (@mp_full_row rat)
                   (projT2 (construct_augmented_jacobian e0_jacobians)) == 0) e0_jacobians.
Proof.
have hP : projT2 (construct_augmented_jacobian e0_jacobians) *m
    mp_full_row (projT2 (construct_augmented_jacobian e0_jacobians))
    *m projT2 (construct_augmented_jacobian e0_jacobians) =
    projT2 (construct_augmented_jacobian e0_jacobians).
  by apply: (proj1 (mp_full_row_penrose _)); rewrite e0_jacobians_augmented e0_row_gram unitmx1.
split; first exact: hP.
exact: (@calculate_nullspace_annihilates_previous rat 6 (@mp_full_row rat) e0_jacobians hP).
Defined.

(** A single equality task with error [0]. *)
Lemma calculate_system_velocity_zero_rhs_witness :
  ~~ nilp [:: zero_task_ex] /\ all (fun t => task_rhs t == 0) [:: zero_task_ex] /\
  calculate_system_velocity (@mp_full_row rat) [:: zero_task_ex] = Some 0.
Proof.
have h : all (fun t => task_rhs t == 0) [:: zero_task_ex].
  by rewrite /= andbT /task_rhs /= mulmx0 addr0.
split; first by [].
split; first exact: h.
exact: (@calculate_system_velocity_zero_rhs rat 6 (@mp_full_row rat) [:: zero_task_ex] isT h).
Defined.

Section ExtraControllerTheory.

Variable R : realFieldType.
Variable n : nat.
Variable pinv : forall p q, 'M[R]_(p, q) -> 'M[R]_(q, p).
Variable sqrt_ : R -> R.

Local Notation task := (task R n).
Local Notation node := (node R n).

(** [update] with no set task in any mode (node initialised, at least the six
    vehicle degrees of freedom): it raises exactly when the first mode is
    empty or there is no mode, it never returns silently, and what it
    publishes is built from the first mode's solution; the other modes are
    ignored. *)
Theorem update_without_set_tasks (s : node) :
  initialized s -> ~~ has_set_tasks (hierarchies s) -> (6 <= n)%N ->
  (update pinv sqrt_ s = URaise <-> nilp (head [::] (hierarchies s))) /\
  update pinv sqrt_ s <> UReturn /\
  forall tr, update pinv sqrt_ s = UPublish tr ->
    get_robot_trajectory_from_velocities (chain_joint_names s)
      (col_seq (mode_solution pinv (head [::] (hierarchies s)))) = Some tr.
Proof.
move=> hi hns h6; rewrite /update hi hns /=.
case: (hierarchies s) => [|[|t h] hs] //=.
have [tr htr] : exists tr, get_robot_trajectory_from_velocities (chain_joint_names s)
    (col_seq (mode_solution pinv (t :: h))) = Some tr.
  by apply: get_robot_trajectory_some; rewrite size_col_seq.
rewrite /publish_velocities -/(mode_solution pinv (t :: h)) htr.
by split=> //; split=> // tr' [<-].
Qed.

Lemma py_truth_elementwise_none m (f : R -> bool) (c : 'cV[R]_m) :
  (2 <= m)%N -> py_truth (elementwise f c) = None.
Proof.
move=> hm; rewrite /elementwise; have := size_enum_ord m.
case: (enum 'I_m) => [|a [|b l]] //= hs; by rewrite -hs in hm.
Qed.

Lemma set_task_check_multi (t : task) sp sol :
  (2 <= tm t)%N -> set_task_check t sp sol = None.
Proof.
move=> h2; rewrite /set_task_check; cbv zeta; rewrite !py_truth_elementwise_none //.
by case: (current_value sp < lower sp) => //=; case: (upper sp < current_value sp).
Qed.

Lemma all_satisfied_multi (sts : seq task) sol :
  all (@is_set_task R n) sts -> has (fun t => (2 <= tm t)%N) sts -> all_satisfied sts sol = None.
Proof.
elim: sts => [|t ts IH] //= /ssrbool.andP [hst hall] /ssrbool.orP [h2|hh].
  move: hst; rewrite /is_set_task; case: (set_part t) => [sp|] // _.
  by rewrite set_task_check_multi.
by rewrite (IH hall hh); case: (set_part t) => [sp|] //; case: set_task_check.
Qed.

Lemma collect_solutions_multi (sts : seq task) hs :
  ~~ nilp hs -> all (@is_set_task R n) sts -> has (fun t => (2 <= tm t)%N) sts ->
  collect_solutions pinv sts hs = None.
Proof.
case: hs => [|h hs] //= _ hall hh.
by case: calculate_system_velocity => // sol; rewrite all_satisfied_multi.
Qed.

(** When a set task checked by [update] has a Jacobian with two or more rows,
    [update] raises: [np.isclose(projection, 0.0)] is then an array of
    several booleans whose truth value raises [ValueError]. *)
Theorem update_multi_row_set_task_raises (s : node) :
  initialized s -> has_set_tasks (hierarchies s) ->
  has (fun t => (2 <= tm t)%N) (active_set_tasks s) ->
  update pinv sqrt_ s = URaise.
Proof.
move=> hi hset hh; rewrite /update hi hset /=.
have hne : ~~ nilp (hierarchies s).
  by move: hset; rewrite /has_set_tasks; case: (hierarchies s).
have hall : all (@is_set_task R n) (active_set_tasks s) by apply: filter_all.
by rewrite (@collect_solutions_multi (active_set_tasks s)).
Qed.

Variable joint_limit_update : task -> R -> option task.
Variable joint_limit_set_task_active : task -> R -> option task.
Variable roll_pitch_update : task -> quaternion R -> option task.
Variable configuration_update : task -> seq R -> option task.
Variable yaw_update : task -> quaternion R -> option task.
Variable orientation_update : task -> quaternion R -> option task.
Variable end_effector_update :
  task -> seq R -> transform R -> transform R -> transform R -> option task.

Local Notation update_task_context :=
  (update_task_context joint_limit_update joint_limit_set_task_active
     roll_pitch_update configuration_update yaw_update orientation_update
     end_effector_update).

Local Notation update_context_tasks :=
  (update_context_tasks joint_limit_update joint_limit_set_task_active
     roll_pitch_update configuration_update yaw_update orientation_update
     end_effector_update).

(** A [JointLimit] task with index [joint] reads [position[1:][joint - 6]]:
    for [joint >= 6] the entry [position[joint - 5]], for [joint < 6] the
    entry counted from the end; an index outside the list raises
    [IndexError].  The jaws entry [position[0]] is never read. *)
Theorem update_task_context_joint_limit st lookup (t : task) (joint : int) :
  kind t = KJointLimit joint ->
  update_task_context st lookup t =
    if (0 <= joint - 6)%R then
      if (`|joint - 6|.+1 < size (joint_positions st))%N then
        obind (fun t' => joint_limit_set_task_active t' (nth 0 (joint_positions st) `|joint - 6|.+1))
          (joint_limit_update t (nth 0 (joint_positions st) `|joint - 6|.+1))
      else None
    else
      if (`|joint - 6| < size (joint_positions st))%N then
        obind (fun t' => joint_limit_set_task_active t' (nth 0 (joint_positions st) (size (joint_positions st) - `|joint - 6|)))
          (joint_limit_update t (nth 0 (joint_positions st) (size (joint_positions st) - `|joint - 6|)))
      else None.
Proof.
move=> hk; rewrite /update_task_context hk.
case: (joint - 6) => k /=; rewrite size_behead -ltn_predRL.
  by case: ifP => // _; rewrite nth_behead.
case: ifP => // h; rewrite nth_behead.
have -> : ((size (joint_positions st)).-1 - k.+1).+1 = (size (joint_positions st) - k.+1)%N.
  by rewrite subnSK // -subn1 -subnDA add1n.
by [].
Qed.

End ExtraControllerTheory.

(** A node with a single equality task and no set task. *)
Lemma update_without_set_tasks_witness :
  initialized node_eq_only /\ ~~ has_set_tasks (hierarchies node_eq_only) /\ (6 <= 6)%N /\
  (update (@mp_full_row rat) id node_eq_only = URaise <->
     nilp (head [::] (hierarchies node_eq_only))) /\
  update (@mp_full_row rat) id node_eq_only <> UReturn /\
  forall tr, update (@mp_full_row rat) id node_eq_only = UPublish tr ->
    get_robot_trajectory_from_velocities (chain_joint_names node_eq_only)
      (col_seq (mode_solution (@mp_full_row rat) (head [::] (hierarchies node_eq_only)))) = Some tr.
Proof.
have hi : initialized node_eq_only by [].
have hns : ~~ has_set_tasks (hierarchies node_eq_only) by [].
have h6 : (6 <= 6)%N by [].
split; first exact: hi.
split; first exact: hns.
split; first exact: h6.
exact: (@update_without_set_tasks rat 6 (@mp_full_row rat) id node_eq_only hi hns h6).
Defined.

(** A node whose only task is an active set task with two Jacobian rows. *)
Lemma update_multi_row_set_task_raises_witness :
  initialized node_2row /\ has_set_tasks (hierarchies node_2row) /\
  has (fun t => (2 <= tm t)%N) (active_set_tasks node_2row) /\
  update (@mp_full_row rat) id node_2row = URaise.
Proof.
have hi : initialized node_2row by [].
have hs : has_set_tasks (hierarchies node_2row) by [].
have hh : has (fun t => (2 <= tm t)%N) (active_set_tasks node_2row) by [].
split; first exact: hi.
split; first exact: hs.
split; first exact: hh.
exact: (@update_multi_row_set_task_raises rat 6 (@mp_full_row rat) id node_2row hi hs hh).
Defined.

(** A [JointLimit] task with index 6 on a state with the jaws and one arm joint. *)
Lemma update_task_context_joint_limit_witness :
  kind set_task_ex = KJointLimit 6 /\
  update_task_context (@keep1 rat rat) (@keep1 rat rat) (@keep1 rat (quaternion rat))
    (@keep1 rat (seq rat)) (@keep1 rat (quaternion rat)) (@keep1 rat (quaternion rat))
    (@keep_ee rat) (RobotState [:: 0; 5] [::]) (fun _ _ => None) set_task_ex =
  if (0 <= (6 : int) - 6)%R then
    if (`|(6 : int) - 6|.+1 < 2)%N then
      obind (fun t' => @keep1 rat rat t' (nth 0 [:: 0; 5] `|(6 : int) - 6|.+1))
        (@keep1 rat rat set_task_ex (nth 0 [:: 0; 5] `|(6 : int) - 6|.+1))
    else None
  else
    if (`|(6 : int) - 6| < 2)%N then
      obind (fun t' => @keep1 rat rat t' (nth 0 [:: 0; 5] (2 - `|(6 : int) - 6|)))
        (@keep1 rat rat set_task_ex (nth 0 [:: 0; 5] (2 - `|(6 : int) - 6|)))
    else None.
Proof.
split; first by [].
exact: (@update_task_context_joint_limit rat 6 (@keep1 rat rat) (@keep1 rat rat)
          (@keep1 rat (quaternion rat)) (@keep1 rat (seq rat)) (@keep1 rat (quaternion rat))
          (@keep1 rat (quaternion rat)) (@keep_ee rat) (RobotState [:: 0; 5] [::])
          (fun _ _ => None) set_task_ex 6 erefl).
Defined.

